(** * hole-mask: the geometry core of [MaskLayer.tsx]

    A shallow embedding of the helper functions of the [MaskLayer] component
    (value parsing, size normalisation, anchor-relative boundaries, pixel
    conversion and the circular hit test), with the properties its
    specification states about them.

    Conventions of the embedding.
    - A JavaScript [number] is modelled at two levels.  The geometry is
      stated on exact rationals ([Q]), compared with [==]: this is the
      arithmetic the component is meant to perform.  Where rounding decides
      what the program answers (reading a decimal text, the hit test), the
      same functions are also given on binary64 numbers ([F64], built on
      the standard library's [SpecFloat]), with the suffix [64].
    - A JavaScript string is a [string]; a template literal that builds a CSS
      [calc(...)] expression is kept as a small syntax tree ([CssValue]) and
      turned into text by [render] where the code reads it as text again.
    - [throw new Error(...)] is the left injection of a sum. *)

From Stdlib Require Import ZArith QArith Qminmax Qreals Reals Lra Lia.
From Stdlib Require Import Bool List Ascii String.
From Stdlib Require Lqa Qcanon.
From Stdlib Require Import SpecFloat Qpower.
Import ListNotations.

Open Scope string_scope.

(** ** Data model *)

(** [type Unit = 'px' | '%'] *)
Inductive Unit : Type := px | pct.

Definition unit_text (u : Unit) : string :=
  match u with
  | px => "px"
  | pct => "%"
  end.

(** [Position['anchor']] *)
Inductive Anchor : Type :=
| ANCHOR_MIDDLE
| ANCHOR_TOP_LEFT
| ANCHOR_TOP_RIGHT
| ANCHOR_BOTTOM_LEFT
| ANCHOR_BOTTOM_RIGHT.

(** [Position['shape']] *)
Inductive Shape : Type :=
| SHAPE_RECTANGLE
| SHAPE_SQUARE
| SHAPE_CIRCLE.

(** [interface Position]; the three value fields are strings at run time. *)
Record Position : Type := mkPosition {
  x : string;
  y : string;
  size : string;
  anchor : Anchor;
  shape : Shape
}.

(** The object [{ value, unit }] returned by [parseValue]. *)
Record Parsed : Type := mkParsed {
  value : Q;
  unit : Unit
}.

(** The two [Error]s the helpers throw, each carrying the text interpolated
    into its message. *)
Inductive Error : Type :=
| InvalidPositionValue (text : string)
| InvalidRectangleDimensions (text : string).

Definition Result (A : Type) : Type := (Error + A)%type.
Definition Ok {A : Type} (a : A) : Result A := inr a.
Definition Throw {A : Type} (e : Error) : Result A := inl e.

(** ** Strings *)

Module Str.

(** [\d]: an ASCII digit. *)
Definition is_digit (c : ascii) : bool :=
  ((48 <=? nat_of_ascii c) && (nat_of_ascii c <=? 57))%nat.

Definition digit_val (c : ascii) : Z := Z.of_nat (nat_of_ascii c) - 48.

Definition space : ascii := " "%char.
Definition dot : ascii := "."%char.

(** [\d*] read greedily: the digits in front and what follows them. *)
Fixpoint span_digits (s : string) : string * string :=
  match s with
  | EmptyString => (EmptyString, EmptyString)
  | String c r =>
      if is_digit c
      then let (d, t) := span_digits r in (String c d, t)
      else (EmptyString, s)
  end.

(** [s.includes(' ')] *)
Fixpoint includes_space (s : string) : bool :=
  match s with
  | EmptyString => false
  | String c r => if Ascii.eqb c space then true else includes_space r
  end.

(** [s.split(' ')]: the pieces between single space characters; an empty
    piece is kept, and a string without a space is its only piece. *)
Fixpoint split_space (s : string) : list string :=
  match s with
  | EmptyString => [EmptyString]
  | String c r =>
      if Ascii.eqb c space
      then EmptyString :: split_space r
      else match split_space r with
           | [] => [String c EmptyString]
           | p :: ps => String c p :: ps
           end
  end.

(** [parts[0]] of a split, which always exists. *)
Definition first_part (s : string) : string :=
  match split_space s with
  | [] => EmptyString
  | p :: _ => p
  end.

Definition all_digits (s : string) : Prop :=
  Forall (fun c => is_digit c = true) (list_ascii_of_string s).

End Str.

(** ** [parseValue] *)

(** [match[2]] of the pattern: what is left must be exactly [px] or [%]. *)
Definition match_unit (s : string) : option Unit :=
  if String.eqb s "px" then Some px
  else if String.eqb s "%" then Some pct
  else None.

(** [value.match(/^(\d+(?:\.\d+)?)(px|%)$/)]: the two capture groups, or
    [None] when the pattern does not match.  The digits are read greedily;
    the optional fraction is taken when a dot and at least one digit follow,
    and the unit must end the string. *)
Definition match_length (s : string) : option (string * Unit) :=
  let (ip, r1) := Str.span_digits s in
  match ip with
  | EmptyString => None
  | String _ _ =>
      match r1 with
      | String c r2 =>
          if Ascii.eqb c Str.dot
          then let (fp, r3) := Str.span_digits r2 in
               match fp with
               | EmptyString => None
               | String _ _ =>
                   match match_unit r3 with
                   | Some u => Some (ip ++ String Str.dot fp, u)
                   | None => None
                   end
               end
          else match match_unit r1 with
               | Some u => Some (ip, u)
               | None => None
               end
      | EmptyString => None
      end
  end.

(** [parseFloat] on the text of the first capture group, before rounding:
    the digits are accumulated left to right, the fraction digits also
    count the scale.  This is the exact value the text writes;
    [parseFloat64] is the Number the program gets. *)
Fixpoint read_digits (acc : Z) (n : nat) (s : string) : Z * nat * string :=
  match s with
  | EmptyString => (acc, n, EmptyString)
  | String c r =>
      if Str.is_digit c
      then read_digits (10 * acc + Str.digit_val c) (S n) r
      else (acc, n, s)
  end.

Definition parseFloat (s : string) : Q :=
  match read_digits 0 0 s with
  | (i, _, String c r) =>
      if Ascii.eqb c Str.dot
      then match read_digits i 0 r with
           | (m, k, _) => Qmake m (Pos.of_nat (10 ^ k))
           end
      else inject_Z i
  | (i, _, EmptyString) => inject_Z i
  end.

Definition parseValue (v : string) : Result Parsed :=
  match match_length v with
  | None => Throw (InvalidPositionValue v)
  | Some (num, u) => Ok {| value := parseFloat num; unit := u |}
  end.

(** ** CSS values built by template literals *)

(** The second operand of a [calc(...)] the component writes: either a
    string interpolated as it is ([${holePosition.size}]) or a number
    followed by a unit ([${n}${unit}]). *)
Inductive Operand : Type :=
| OText (s : string)
| ONum (n : Q) (u : Unit).

Inductive Sign : Type := Plus | Minus.

(** A CSS value the component produces: a position string passed through,
    or [`calc(${ref} + ${delta})`] / [`calc(${ref} - ${delta})`]. *)
Inductive CssValue : Type :=
| Plain (s : string)
| Calc (ref : string) (op : Sign) (delta : Operand).

Section Rendering.

(** The conversion of a number to text that a template literal applies. *)
Variable Number_toString : Q -> string.

Definition render_operand (o : Operand) : string :=
  match o with
  | OText s => s
  | ONum n u => Number_toString n ++ unit_text u
  end.

Definition sign_text (op : Sign) : string :=
  match op with
  | Plus => " + "
  | Minus => " - "
  end.

(** The text of a CSS value. *)
Definition render (v : CssValue) : string :=
  match v with
  | Plain s => s
  | Calc r op d => "calc(" ++ r ++ sign_text op ++ render_operand d ++ ")"
  end.

End Rendering.

(** ** Size normalisation *)

Record Dimensions : Type := mkDimensions {
  width : Parsed;
  height : Parsed
}.

Definition parseRectangleDimensions (v : string) : Result Dimensions :=
  match Str.split_space v with
  | [p0; p1] =>
      match match_length p0, match_length p1 with
      | Some (wn, wu), Some (hn, hu) =>
          Ok {| width := {| value := parseFloat wn; unit := wu |};
                height := {| value := parseFloat hn; unit := hu |} |}
      | _, _ => Throw (InvalidRectangleDimensions v)
      end
  | _ => Throw (InvalidRectangleDimensions v)
  end.

Definition getShapeSize (sz : string) (sh : Shape) : string :=
  match sh with
  | SHAPE_RECTANGLE =>
      if negb (Str.includes_space sz)
      then sz ++ " " ++ sz
      else sz
  | SHAPE_SQUARE
  | SHAPE_CIRCLE =>
      if Str.includes_space sz
      then Str.first_part sz
      else sz
  end.

(** ** Circle centre, hit test, pixels *)

Record Center : Type := mkCenter {
  centerX : CssValue;
  centerY : CssValue
}.

Definition calculateCircleCenter
    (x y : string) (radius : Q) (u : Unit) (a : Anchor) : Center :=
  match a with
  | ANCHOR_TOP_LEFT =>
      {| centerX := Calc x Plus (ONum radius u);
         centerY := Calc y Plus (ONum radius u) |}
  | ANCHOR_TOP_RIGHT =>
      {| centerX := Calc x Minus (ONum radius u);
         centerY := Calc y Plus (ONum radius u) |}
  | ANCHOR_BOTTOM_LEFT =>
      {| centerX := Calc x Plus (ONum radius u);
         centerY := Calc y Minus (ONum radius u) |}
  | ANCHOR_BOTTOM_RIGHT =>
      {| centerX := Calc x Minus (ONum radius u);
         centerY := Calc y Minus (ONum radius u) |}
  | ANCHOR_MIDDLE =>
      {| centerX := Plain x;
         centerY := Plain y |}
  end.

(** [Math.sqrt(d) <= r] on exact numbers.  The root of a rational is not a
    rational in general, so the comparison is decided by squaring; theorem
    [sqrt_le_spec] relates it to the real square root. *)
Definition sqrt_le (d r : Q) : bool :=
  Qle_bool 0 r && Qle_bool d (r * r).

Definition isClickInsideCircle
    (clickX clickY centerX centerY radius : Q) : bool :=
  sqrt_le ((clickX - centerX) ^ 2 + (clickY - centerY) ^ 2) radius.

Definition positionToPixels (value : Q) (u : Unit) (containerSize : Q) : Q :=
  match u with
  | pct => (containerSize * value) / 100
  | px => value
  end.

(** ** [getHoleBoundaries] *)

Record Bounds : Type := mkBounds {
  left : CssValue;
  top : CssValue;
  right : CssValue;
  bottom : CssValue
}.

Definition getHoleBoundaries (holePosition : Position) : Result Bounds :=
  let hx := x holePosition in
  let hy := y holePosition in
  match shape holePosition with
  | SHAPE_RECTANGLE =>
      let rectangleSize := getShapeSize (size holePosition) SHAPE_RECTANGLE in
      match parseRectangleDimensions rectangleSize with
      | inl e => Throw e
      | inr dimensions =>
          let w := width dimensions in
          let h := height dimensions in
          match anchor holePosition with
          | ANCHOR_TOP_LEFT =>
              Ok {| left := Plain hx;
                    top := Plain hy;
                    right := Calc hx Plus (ONum (value w) (unit w));
                    bottom := Calc hy Plus (ONum (value h) (unit h)) |}
          | ANCHOR_TOP_RIGHT =>
              Ok {| left := Calc hx Minus (ONum (value w) (unit w));
                    top := Plain hy;
                    right := Plain hx;
                    bottom := Calc hy Plus (ONum (value h) (unit h)) |}
          | ANCHOR_BOTTOM_LEFT =>
              Ok {| left := Plain hx;
                    top := Calc hy Minus (ONum (value h) (unit h));
                    right := Calc hx Plus (ONum (value w) (unit w));
                    bottom := Plain hy |}
          | ANCHOR_BOTTOM_RIGHT =>
              Ok {| left := Calc hx Minus (ONum (value w) (unit w));
                    top := Calc hy Minus (ONum (value h) (unit h));
                    right := Plain hx;
                    bottom := Plain hy |}
          | ANCHOR_MIDDLE =>
              Ok {| left := Calc hx Minus (ONum (value w / 2) (unit w));
                    top := Calc hy Minus (ONum (value h / 2) (unit h));
                    right := Calc hx Plus (ONum (value w / 2) (unit w));
                    bottom := Calc hy Plus (ONum (value h / 2) (unit h)) |}
          end
      end
  | SHAPE_SQUARE
  | SHAPE_CIRCLE =>
      let singleSize := getShapeSize (size holePosition) (shape holePosition) in
      match parseValue singleSize with
      | inl e => Throw e
      | inr sizeParsed =>
          let hs := size holePosition in
          match anchor holePosition with
          | ANCHOR_TOP_LEFT =>
              Ok {| left := Plain hx;
                    top := Plain hy;
                    right := Calc hx Plus (OText hs);
                    bottom := Calc hy Plus (OText hs) |}
          | ANCHOR_TOP_RIGHT =>
              Ok {| left := Calc hx Minus (OText hs);
                    top := Plain hy;
                    right := Plain hx;
                    bottom := Calc hy Plus (OText hs) |}
          | ANCHOR_BOTTOM_LEFT =>
              Ok {| left := Plain hx;
                    top := Calc hy Minus (OText hs);
                    right := Calc hx Plus (OText hs);
                    bottom := Plain hy |}
          | ANCHOR_BOTTOM_RIGHT =>
              Ok {| left := Calc hx Minus (OText hs);
                    top := Calc hy Minus (OText hs);
                    right := Plain hx;
                    bottom := Plain hy |}
          | ANCHOR_MIDDLE =>
              Ok {| left :=
                      Calc hx Minus (ONum (value sizeParsed / 2) (unit sizeParsed));
                    top :=
                      Calc hy Minus (ONum (value sizeParsed / 2) (unit sizeParsed));
                    right :=
                      Calc hx Plus (ONum (value sizeParsed / 2) (unit sizeParsed));
                    bottom :=
                      Calc hy Plus (ONum (value sizeParsed / 2) (unit sizeParsed)) |}
          end
      end
  end.

(** The body of [if (holePosition.shape === 'SHAPE_CIRCLE')] in the
    component: the radius, its unit and the centre that are interpolated
    into the [radial-gradient] mask. *)
Record CircleMask : Type := mkCircleMask {
  mask_radius : Q;
  mask_unit : Unit;
  mask_center : Center
}.

Definition circleMask (holePosition : Position) : Result CircleMask :=
  let circleSize := getShapeSize (size holePosition) SHAPE_CIRCLE in
  match parseValue circleSize with
  | inl e => Throw e
  | inr sizeParsed =>
      let radius := value sizeParsed / 2 in
      Ok {| mask_radius := radius;
            mask_unit := unit sizeParsed;
            mask_center :=
              calculateCircleCenter (x holePosition) (y holePosition)
                radius (unit sizeParsed) (anchor holePosition) |}
  end.

(** ** The click handler of the circle mask *)

(** What a handler does to the page: the calls it makes, in order. *)
Inductive Effect : Type :=
| StopPropagation
| DispatchClick (clientX clientY : Q)
| OverlayClick.

Definition World : Type := list Effect.

Module DOMRect.
Record t : Type := mk {
  left : Q;
  top : Q;
  width : Q;
  height : Q
}.
End DOMRect.

(** [event.currentTarget]: its bounding rectangle and whether it has a
    parent element. *)
Record Element : Type := mkElement {
  getBoundingClientRect : DOMRect.t;
  parentElement : bool
}.

Record MouseEvent : Type := mkMouseEvent {
  clientX : Q;
  clientY : Q;
  currentTarget : Element
}.

(** The props the handlers read; [onOverlayClick] records whether the
    optional callback was supplied. *)
Record MaskLayerProps : Type := mkProps {
  holePosition : Position;
  onOverlayClick : bool
}.

(** Computations that may throw and that act on the page. *)
Definition M (A : Type) : Type := World -> Result A * World.

Definition ret {A : Type} (a : A) : M A := fun w => (Ok a, w).

Definition bind {A B : Type} (m : M A) (f : A -> M B) : M B :=
  fun w =>
    match m w with
    | (inl e, w') => (Throw e, w')
    | (inr a, w') => f a w'
    end.

Definition lift {A : Type} (r : Result A) : M A := fun w => (r, w).

Definition emit (e : Effect) : M Datatypes.unit :=
  fun w => (Ok tt, (w ++ [e])%list).

Notation "x <- m ;; k" := (bind m (fun x => k))
  (at level 61, m at next level, right associativity).
Notation "m ;;; k" := (bind m (fun _ => k))
  (at level 61, right associativity).

Section Handler.

Variable Number_toString : Q -> string.

Definition handleCircleClick
    (props : MaskLayerProps) (event : MouseEvent) : M Datatypes.unit :=
  let hp := holePosition props in
  let rect := getBoundingClientRect (currentTarget event) in
  let clickX := clientX event - DOMRect.left rect in
  let clickY := clientY event - DOMRect.top rect in
  let circleSize := getShapeSize (size hp) SHAPE_CIRCLE in
  sizeParsed <- lift (parseValue circleSize) ;;
  let radius := value sizeParsed / 2 in
  let c := calculateCircleCenter (x hp) (y hp) radius
             (unit sizeParsed) (anchor hp) in
  centerXValue <- lift (parseValue (render Number_toString (centerX c))) ;;
  centerYValue <- lift (parseValue (render Number_toString (centerY c))) ;;
  let centerXPx :=
    positionToPixels (value centerXValue) (unit centerXValue)
      (DOMRect.width rect) in
  let centerYPx :=
    positionToPixels (value centerYValue) (unit centerYValue)
      (DOMRect.height rect) in
  let radiusPx :=
    positionToPixels radius (unit sizeParsed)
      (Qmin (DOMRect.width rect) (DOMRect.height rect)) in
  if isClickInsideCircle clickX clickY centerXPx centerYPx radiusPx
  then
    emit StopPropagation ;;;
    if parentElement (currentTarget event)
    then emit (DispatchClick (clientX event) (clientY event))
    else ret tt
  else
    emit StopPropagation ;;;
    if onOverlayClick props
    then emit OverlayClick
    else ret tt.

End Handler.

(** ** Pixel resolution of CSS values *)

(** Modelled from the spec: the resolution of a coordinate expression to
    pixels, which the component leaves to the style engine.  A length is
    read with the grammar of [parseValue] and converted by
    [positionToPixels]; an expression resolves its reference and its delta
    independently against the same container extent and combines them by the
    recorded operator.  Text that is not one length does not resolve. *)
Definition toPixels (s : string) (containerExtent : Q) : option Q :=
  match parseValue s with
  | inl _ => None
  | inr p => Some (positionToPixels (value p) (unit p) containerExtent)
  end.

(** Modelled from the spec: the delta of an expression, resolved on its
    own; interpolated text is read as one length. *)
Definition operandToPixels (o : Operand) (containerExtent : Q) : option Q :=
  match o with
  | OText s => toPixels s containerExtent
  | ONum n u => Some (positionToPixels n u containerExtent)
  end.

(** Modelled from the spec: reference and delta are resolved independently
    against the same extent and combined by the recorded operator. *)
Definition resolve (v : CssValue) (containerExtent : Q) : option Q :=
  match v with
  | Plain s => toPixels s containerExtent
  | Calc r op d =>
      match toPixels r containerExtent, operandToPixels d containerExtent with
      | Some a, Some b =>
          Some match op with
               | Plus => a + b
               | Minus => a - b
               end
      | _, _ => None
      end
  end.

(** Modelled from the spec: the four edges in pixels, the horizontal ones
    against the container width, the vertical ones against its height. *)
Record PixelBox : Type := mkPixelBox {
  leftPx : Q;
  topPx : Q;
  rightPx : Q;
  bottomPx : Q
}.

(** Modelled from the spec: width for x, height for y. *)
Definition resolveBounds (b : Bounds) (w h : Q) : option PixelBox :=
  match resolve (left b) w, resolve (top b) h,
        resolve (right b) w, resolve (bottom b) h with
  | Some l, Some t, Some r, Some bt =>
      Some {| leftPx := l; topPx := t; rightPx := r; bottomPx := bt |}
  | _, _, _, _ => None
  end.

(** ** The length grammar and the tokens, in the words of the specification *)

Module Grammar.

(** The magnitude a digit string writes, by positional notation. *)
Fixpoint positional (ds : list ascii) : Z :=
  match ds with
  | [] => 0
  | d :: r => Str.digit_val d * 10 ^ Z.of_nat (List.length r) + positional r
  end.

(** What may follow a maximal run of digits. *)
Definition head_not_digit (t : string) : Prop :=
  match t with
  | EmptyString => True
  | String c _ => Str.is_digit c = false
  end.

Definition digits (s : string) : Prop :=
  s <> EmptyString /\ Str.all_digits s.

(** [<digits>[.<digits>](px|%)]: the text, the number it writes and its
    unit. *)
Inductive LengthText : string -> Q -> Unit -> Prop :=
| LT_integer (ds : string) (u : Unit) :
    digits ds ->
    LengthText (ds ++ unit_text u)
      (inject_Z (positional (list_ascii_of_string ds))) u
| LT_fraction (ds fs : string) (u : Unit) :
    digits ds -> digits fs ->
    LengthText (ds ++ String Str.dot fs ++ unit_text u)
      (inject_Z (positional (list_ascii_of_string ds))
       + inject_Z (positional (list_ascii_of_string fs))
         / inject_Z (10 ^ Z.of_nat (String.length fs))) u.

Definition well_formed (s : string) : Prop :=
  exists q u, LengthText s q u.

(** White space: space, tab, line feed, vertical tab, form feed, carriage
    return. *)
Definition is_whitespace (c : ascii) : bool :=
  let n := nat_of_ascii c in
  ((n =? 32) || ((9 <=? n) && (n <=? 13)))%nat.

(** The tokens of a text split on white space; [cur] is the token being
    read, reversed. *)
Fixpoint tokens_from (cur : list ascii) (s : string) : list string :=
  let flush :=
    match cur with
    | [] => []
    | _ :: _ => [string_of_list_ascii (rev cur)]
    end in
  match s with
  | EmptyString => flush
  | String c r =>
      if is_whitespace c
      then (flush ++ tokens_from [] r)%list
      else tokens_from (c :: cur) r
  end.

Definition tokens (s : string) : list string := tokens_from [] s.

Definition no_whitespace (p : string) : Prop :=
  Forall (fun c => is_whitespace c = false) (list_ascii_of_string p).

(** A piece that is a token: not empty and free of white space. *)
Definition token_like (p : string) : Prop :=
  p <> EmptyString /\ no_whitespace p.

End Grammar.

(** ** Euclidean distance, in the reals *)

(** The squared distance from the click to the centre. *)
Definition Rdist2 (clickX clickY centerX centerY : Q) : R :=
  ((Q2R clickX - Q2R centerX) * (Q2R clickX - Q2R centerX)
   + (Q2R clickY - Q2R centerY) * (Q2R clickY - Q2R centerY))%R.

(** The distance from the click to the centre. *)
Definition Rdist (clickX clickY centerX centerY : Q) : R :=
  sqrt (Rdist2 clickX clickY centerX centerY).

(** ** The sign table of the anchors *)

(** The direction in which a corner anchor moves the centre of a circle
    away from the reference point, per axis: towards the inside of the
    shape, which is right of a left anchor and below a top anchor. *)
Definition inward_x (a : Anchor) : Q :=
  match a with
  | ANCHOR_TOP_LEFT | ANCHOR_BOTTOM_LEFT => 1
  | ANCHOR_TOP_RIGHT | ANCHOR_BOTTOM_RIGHT => -1
  | ANCHOR_MIDDLE => 0
  end.

Definition inward_y (a : Anchor) : Q :=
  match a with
  | ANCHOR_TOP_LEFT | ANCHOR_TOP_RIGHT => 1
  | ANCHOR_BOTTOM_LEFT | ANCHOR_BOTTOM_RIGHT => -1
  | ANCHOR_MIDDLE => 0
  end.

(** The centre expression the sign table prescribes on one axis. *)
Definition shifted (ref : string) (dir : Q) (radius : Q) (u : Unit) : CssValue :=
  if Qeq_bool dir 0 then Plain ref
  else if Qle_bool 0 dir then Calc ref Plus (ONum radius u)
  else Calc ref Minus (ONum radius u).

(** ** The rest of the component: strips, overlay clicks, rendering *)

(** [getRectangleHeight]: the height given to the left and right strips. *)
Definition getRectangleHeight (holePosition : Position) : string :=
  match shape holePosition with
  | SHAPE_RECTANGLE =>
      match Str.split_space (size holePosition) with
      | [_; d1] => d1
      | _ => size holePosition
      end
  | SHAPE_SQUARE
  | SHAPE_CIRCLE =>
      if Str.includes_space (size holePosition)
      then Str.first_part (size holePosition)
      else size holePosition
  end.

(** [handleClick]: the handler of the four strips. *)
Definition handleClick
    (props : MaskLayerProps) (event : MouseEvent) : M Datatypes.unit :=
  emit StopPropagation ;;;
  if onOverlayClick props
  then emit OverlayClick
  else ret tt.

(** A length in a [style] object of the component. *)
Inductive StyleLength : Type :=
| LZero                     (* [0] *)
| LFull                     (* ['100%'] *)
| LValue (v : CssValue)     (* an edge of the hole *)
| LRest (v : CssValue)      (* [`calc(100% - ${v})`] *)
| LText (s : string).       (* the text [getRectangleHeight()] returns *)

Inductive Handler : Type := HandleClick | HandleCircleClick.

Module Style.
Record t : Type := mk {
  top : option StyleLength;
  bottom : option StyleLength;
  left : option StyleLength;
  right : option StyleLength;
  width : StyleLength;
  height : StyleLength;
  backgroundColor : string;
  mask : option CircleMask;
  zIndex : Q
}.
End Style.

(** A rendered [<div>]; all of them are positioned absolutely. *)
Record Div : Type := mkDiv {
  onClick : Handler;
  style : Style.t
}.

(** The component body from [const holeBounds = getHoleBoundaries()] on:
    one masked [<div>] for a circle, four strips otherwise.  The two
    optional props take their default when they are not supplied. *)
Definition MaskLayer
    (props : MaskLayerProps)
    (backgroundColor : option string) (maskIndex : option Q)
    : Result (list Div) :=
  let backgroundColor :=
    match backgroundColor with
    | Some c => c
    | None => "rgba(0, 0, 0, 0.1)"
    end in
  let maskIndex :=
    match maskIndex with
    | Some z => z
    | None => 1000
    end in
  let hp := holePosition props in
  match getHoleBoundaries hp with
  | inl e => Throw e
  | inr holeBounds =>
      match shape hp with
      | SHAPE_CIRCLE =>
          match circleMask hp with
          | inl e => Throw e
          | inr m =>
              Ok [ {| onClick := HandleCircleClick;
                      style := {| Style.top := Some LZero;
                                  Style.bottom := None;
                                  Style.left := Some LZero;
                                  Style.right := None;
                                  Style.width := LFull;
                                  Style.height := LFull;
                                  Style.backgroundColor := backgroundColor;
                                  Style.mask := Some m;
                                  Style.zIndex := maskIndex |} |} ]
          end
      | SHAPE_RECTANGLE
      | SHAPE_SQUARE =>
          Ok [ {| onClick := HandleClick;
                  style := {| Style.top := Some LZero;
                              Style.bottom := None;
                              Style.left := Some LZero;
                              Style.right := None;
                              Style.width := LFull;
                              Style.height := LValue (top holeBounds);
                              Style.backgroundColor := backgroundColor;
                              Style.mask := None;
                              Style.zIndex := maskIndex |} |};
               {| onClick := HandleClick;
                  style := {| Style.top := None;
                              Style.bottom := Some LZero;
                              Style.left := Some LZero;
                              Style.right := None;
                              Style.width := LFull;
                              Style.height := LRest (bottom holeBounds);
                              Style.backgroundColor := backgroundColor;
                              Style.mask := None;
                              Style.zIndex := maskIndex |} |};
               {| onClick := HandleClick;
                  style := {| Style.top := Some (LValue (top holeBounds));
                              Style.bottom := None;
                              Style.left := Some LZero;
                              Style.right := None;
                              Style.width := LValue (left holeBounds);
                              Style.height := LText (getRectangleHeight hp);
                              Style.backgroundColor := backgroundColor;
                              Style.mask := None;
                              Style.zIndex := maskIndex |} |};
               {| onClick := HandleClick;
                  style := {| Style.top := Some (LValue (top holeBounds));
                              Style.bottom := None;
                              Style.left := None;
                              Style.right := Some LZero;
                              Style.width := LRest (right holeBounds);
                              Style.height := LText (getRectangleHeight hp);
                              Style.backgroundColor := backgroundColor;
                              Style.mask := None;
                              Style.zIndex := maskIndex |} |} ]
      end
  end.

(** ** Where a strip lies *)

(** Modelled from the spec: a length of a style in pixels, against the
    container extent of its axis; [100%] is the extent and
    [calc(100% - v)] what [v] leaves of it. *)
Definition lengthToPixels (l : StyleLength) (containerExtent : Q) : option Q :=
  match l with
  | LZero => Some 0
  | LFull => Some containerExtent
  | LValue v => resolve v containerExtent
  | LRest v =>
      match resolve v containerExtent with
      | Some p => Some (containerExtent - p)
      | None => None
      end
  | LText s => toPixels s containerExtent
  end.

(** A region of the container, in pixels from its top left corner. *)
Record PixelRect : Type := mkPixelRect {
  x0 : Q;
  y0 : Q;
  x1 : Q;
  y1 : Q
}.

(** Modelled from the spec: the interval an absolutely positioned box
    takes on one axis, from its start offset ([top], [left]) or else from
    its end offset ([bottom], [right]) and its extent. *)
Definition span
    (from_start from_end : option StyleLength) (extent : StyleLength)
    (containerExtent : Q) : option (Q * Q) :=
  match lengthToPixels extent containerExtent with
  | None => None
  | Some e =>
      match from_start, from_end with
      | Some a, _ =>
          match lengthToPixels a containerExtent with
          | Some ap => Some (ap, ap + e)
          | None => None
          end
      | None, Some b =>
          match lengthToPixels b containerExtent with
          | Some bp => Some (containerExtent - bp - e, containerExtent - bp)
          | None => None
          end
      | None, None => None
      end
  end.

(** Modelled from the spec: the region a styled [<div>] takes in a
    container [w] wide and [h] high. *)
Definition place (st : Style.t) (w h : Q) : option PixelRect :=
  match span (Style.left st) (Style.right st) (Style.width st) w,
        span (Style.top st) (Style.bottom st) (Style.height st) h with
  | Some (a, b), Some (c, d) => Some {| x0 := a; y0 := c; x1 := b; y1 := d |}
  | _, _ => None
  end.

(** The regions of a list of [<div>]s, when all of them have one. *)
Fixpoint placeAll (ds : list Div) (w h : Q) : option (list PixelRect) :=
  match ds with
  | [] => Some []
  | d :: rest =>
      match place (style d) w h, placeAll rest w h with
      | Some r, Some rs => Some (r :: rs)
      | _, _ => None
      end
  end.

(** A point on a region, its border included. *)
Definition on_rect (r : PixelRect) (px_ py_ : Q) : Prop :=
  x0 r <= px_ /\ px_ <= x1 r /\ y0 r <= py_ /\ py_ <= y1 r.

(** A point strictly inside a pixel box. *)
Definition in_hole (b : PixelBox) (px_ py_ : Q) : Prop :=
  leftPx b < px_ /\ px_ < rightPx b /\ topPx b < py_ /\ py_ < bottomPx b.

(** The share of the width (height) that lies left of (above) the
    reference point, per anchor. *)
Definition before_x (a : Anchor) : Q :=
  match a with
  | ANCHOR_TOP_LEFT | ANCHOR_BOTTOM_LEFT => 0
  | ANCHOR_TOP_RIGHT | ANCHOR_BOTTOM_RIGHT => 1
  | ANCHOR_MIDDLE => 1 # 2
  end.

Definition before_y (a : Anchor) : Q :=
  match a with
  | ANCHOR_TOP_LEFT | ANCHOR_TOP_RIGHT => 0
  | ANCHOR_BOTTOM_LEFT | ANCHOR_BOTTOM_RIGHT => 1
  | ANCHOR_MIDDLE => 1 # 2
  end.

(** The size the boundaries are built from: width and height for a
    rectangle, the one extent twice for a square or a circle. *)
Definition normalizedSize (hp : Position) : Result Dimensions :=
  match shape hp with
  | SHAPE_RECTANGLE =>
      parseRectangleDimensions (getShapeSize (size hp) SHAPE_RECTANGLE)
  | SHAPE_SQUARE
  | SHAPE_CIRCLE =>
      match parseValue (getShapeSize (size hp) (shape hp)) with
      | inl e => Throw e
      | inr p => Ok {| width := p; height := p |}
      end
  end.

(** An event and its target moved together by [(dx, dy)] on the page. *)
Definition moveEvent (dx dy : Q) (e : MouseEvent) : MouseEvent :=
  let t := currentTarget e in
  let r := getBoundingClientRect t in
  {| clientX := clientX e + dx;
     clientY := clientY e + dy;
     currentTarget :=
       {| getBoundingClientRect :=
            {| DOMRect.left := DOMRect.left r + dx;
               DOMRect.top := DOMRect.top r + dy;
               DOMRect.width := DOMRect.width r;
               DOMRect.height := DOMRect.height r |};
          parentElement := parentElement t |} |}.

Definition moveEffect (dx dy : Q) (c : Effect) : Effect :=
  match c with
  | DispatchClick a b => DispatchClick (a + dx) (b + dy)
  | other => other
  end.

(** ** Binary64 numbers *)

Module F64.

(** IEEE-754 binary64: 53 bits of precision, infinities at exponent 1024;
    every operation rounds to nearest, ties to even. *)
Definition prec : Z := 53.
Definition emax : Z := 1024.

Definition t : Type := spec_float.

Definition add : t -> t -> t := SFadd prec emax.
Definition sub : t -> t -> t := SFsub prec emax.
Definition mul : t -> t -> t := SFmul prec emax.
Definition div : t -> t -> t := SFdiv prec emax.
Definition sqrt : t -> t := SFsqrt prec emax.
Definition leb : t -> t -> bool := SFleb.

(** A number of the format: its mantissa and exponent are the canonical
    ones. *)
Definition valid (f : t) : bool := valid_binary prec emax f.

(** Neither an infinity nor NaN. *)
Definition finite (f : t) : bool :=
  match f with
  | S754_zero _ | S754_finite _ _ _ => true
  | S754_infinity _ | S754_nan => false
  end.

(** The rational a finite number stands for (0 for the others). *)
Definition to_Q (f : t) : Q :=
  match f with
  | S754_finite s m e =>
      (if s then - (1) else 1) * (inject_Z (Zpos m) * 2 ^ e)
  | _ => 0
  end.

(** The binary64 number nearest to a rational, ties to even: the
    correctly rounded quotient of its reduced numerator and denominator. *)
Definition nearest (q : Q) : t :=
  let r := Qred q in
  match Qnum r with
  | Z0 => S754_zero false
  | Zpos n => div (S754_finite false n 0) (S754_finite false (Qden r) 0)
  | Zneg n => div (S754_finite true n 0) (S754_finite false (Qden r) 0)
  end.

End F64.

(** The object [{ value, unit }] with its value as the Number it is. *)
Record Parsed64 : Type := mkParsed64 {
  value64 : F64.t;
  unit64 : Unit
}.

(** [parseFloat] on the text of the first capture group, as a Number: the
    value the decimal text writes, rounded to the nearest binary64. *)
Definition parseFloat64 (s : string) : F64.t := F64.nearest (parseFloat s).

(** [parseValue], returning Numbers. *)
Definition parseValue64 (v : string) : Result Parsed64 :=
  match match_length v with
  | None => Throw (InvalidPositionValue v)
  | Some (num, u) => Ok {| value64 := parseFloat64 num; unit64 := u |}
  end.

(** [Math.pow(a, 2)]: the rounded product of [a] with itself. *)
Definition pow2 (a : F64.t) : F64.t := F64.mul a a.

(** [isClickInsideCircle] on Numbers: every step rounds. *)
Definition isClickInsideCircle64
    (clickX clickY centerX centerY radius : F64.t) : bool :=
  let distance :=
    F64.sqrt (F64.add (pow2 (F64.sub clickX centerX))
                      (pow2 (F64.sub clickY centerY))) in
  F64.leb distance radius.

(** The run of [isClickInsideCircle] on these Numbers rounds nowhere: the
    two differences, the two squares, their sum and the square root are
    the exact ones, and the distance and the radius are finite numbers of
    the format. *)
Definition exactly_computed
    (clickX clickY centerX centerY radius : F64.t) : Prop :=
  let dx := F64.sub clickX centerX in
  let dy := F64.sub clickY centerY in
  let sum := F64.add (pow2 dx) (pow2 dy) in
  let distance := F64.sqrt sum in
  F64.to_Q dx == F64.to_Q clickX - F64.to_Q centerX
  /\ F64.to_Q dy == F64.to_Q clickY - F64.to_Q centerY
  /\ F64.to_Q (pow2 dx) == F64.to_Q dx * F64.to_Q dx
  /\ F64.to_Q (pow2 dy) == F64.to_Q dy * F64.to_Q dy
  /\ F64.to_Q sum == F64.to_Q (pow2 dx) + F64.to_Q (pow2 dy)
  /\ F64.to_Q distance * F64.to_Q distance == F64.to_Q sum
  /\ F64.finite distance = true /\ F64.valid distance = true
  /\ F64.finite radius = true /\ F64.valid radius = true.

(** * Properties *)

(** ** Strings and digits *)

Lemma append_empty_r (a : string) : a ++ "" = a.
Proof.
  induction a as [|ch a IH]; simpl; [reflexivity | now rewrite IH].
Qed.

Lemma all_digits_cons (c : ascii) (s : string) :
  Str.all_digits (String c s) <-> Str.is_digit c = true /\ Str.all_digits s.
Proof.
  unfold Str.all_digits; simpl; split; intros H.
  - inversion H; subst; auto.
  - destruct H; constructor; assumption.
Qed.

Lemma span_digits_split (s d t : string) :
  Str.span_digits s = (d, t) ->
  s = d ++ t /\ Str.all_digits d /\ Grammar.head_not_digit t.
Proof.
  revert d t; induction s as [|c s IH]; simpl; intros d t H.
  - inversion H; subst; repeat split; constructor.
  - destruct (Str.is_digit c) eqn:Hc.
    + destruct (Str.span_digits s) as [d' t'] eqn:Hs.
      inversion H; subst; clear H.
      destruct (IH d' t eq_refl) as (-> & Hd & Ht).
      repeat split; [apply all_digits_cons; auto | exact Ht].
    + inversion H; subst; clear H.
      repeat split; [constructor | exact Hc].
Qed.

Lemma span_digits_app (ds t : string) :
  Str.all_digits ds -> Grammar.head_not_digit t ->
  Str.span_digits (ds ++ t) = (ds, t).
Proof.
  induction ds as [|c ds IH]; simpl; intros Hd Ht.
  - destruct t as [|c t]; [reflexivity | simpl in *; now rewrite Ht].
  - apply all_digits_cons in Hd as [Hc Hd].
    now rewrite Hc, IH.
Qed.

Lemma length_list_ascii (s : string) :
  List.length (list_ascii_of_string s) = String.length s.
Proof.
  induction s as [|c s IH]; simpl; [reflexivity | now rewrite IH].
Qed.

Lemma read_digits_app (ds t : string) : forall (acc : Z) (n : nat),
  Str.all_digits ds -> Grammar.head_not_digit t ->
  read_digits acc n (ds ++ t) =
  ((acc * 10 ^ Z.of_nat (String.length ds)
    + Grammar.positional (list_ascii_of_string ds))%Z,
   (n + String.length ds)%nat, t).
Proof.
  induction ds as [|c ds IH]; intros acc n Hd Ht.
  - simpl. replace (acc * 1 + 0)%Z with acc by lia.
    rewrite Nat.add_0_r.
    destruct t as [|c t]; [reflexivity | simpl in *; now rewrite Ht].
  - apply all_digits_cons in Hd as [Hc Hd].
    cbn [append read_digits]. rewrite Hc, IH by assumption.
    cbn [String.length list_ascii_of_string Grammar.positional].
    rewrite length_list_ascii.
    rewrite Nat2Z.inj_succ, Z.pow_succ_r by lia.
    replace (S n + String.length ds)%nat
      with (n + S (String.length ds))%nat by lia.
    do 2 f_equal. ring.
Qed.

Lemma unit_text_head (u : Unit) : Grammar.head_not_digit (unit_text u).
Proof. destruct u; reflexivity. Qed.

Lemma match_unit_spec (r : string) (u : Unit) :
  match_unit r = Some u <-> r = unit_text u.
Proof.
  unfold match_unit.
  destruct (String.eqb_spec r "px") as [->|Hpx].
  - destruct u; simpl; split; intros H; try reflexivity; discriminate.
  - destruct (String.eqb_spec r "%") as [->|Hpc].
    + destruct u; simpl; split; intros H; try reflexivity; discriminate.
    + destruct u; simpl; split; intros H; try discriminate; congruence.
Qed.

Lemma match_unit_text (u : Unit) : match_unit (unit_text u) = Some u.
Proof. now apply match_unit_spec. Qed.

Lemma pow10_pos (k : nat) :
  Z.pos (Pos.of_nat (10 ^ k)) = (10 ^ Z.of_nat k)%Z.
Proof.
  assert (Hk : (10 ^ k)%nat <> 0%nat) by (apply Nat.pow_nonzero; discriminate).
  rewrite <- positive_nat_Z, Nat2Pos.id by exact Hk.
  now rewrite Nat2Z.inj_pow.
Qed.

(** ** [parseFloat] reads positional notation *)

Lemma parseFloat_integer (ds : string) :
  Str.all_digits ds ->
  parseFloat ds = inject_Z (Grammar.positional (list_ascii_of_string ds)).
Proof.
  intros Hd. unfold parseFloat.
  rewrite <- (append_empty_r ds) at 1.
  rewrite read_digits_app by (assumption || exact I).
  now rewrite Z.mul_0_l.
Qed.

Lemma parseFloat_fraction (ds fs : string) :
  Str.all_digits ds -> Str.all_digits fs ->
  parseFloat (ds ++ String Str.dot fs) ==
  inject_Z (Grammar.positional (list_ascii_of_string ds))
  + inject_Z (Grammar.positional (list_ascii_of_string fs))
    / inject_Z (10 ^ Z.of_nat (String.length fs)).
Proof.
  intros Hd Hf. unfold parseFloat.
  rewrite read_digits_app by (assumption || reflexivity).
  rewrite Z.mul_0_l, Z.add_0_l, Ascii.eqb_refl.
  rewrite <- (append_empty_r fs) at 1.
  rewrite read_digits_app by (assumption || exact I).
  cbn [Nat.add].
  set (i := Grammar.positional (list_ascii_of_string ds)).
  set (f := Grammar.positional (list_ascii_of_string fs)).
  rewrite Qmake_Qdiv, pow10_pos.
  set (T := (10 ^ Z.of_nat (String.length fs))%Z).
  assert (HT : ~ inject_Z T == 0).
  { unfold Qeq; simpl. subst T.
    pose proof (Z.pow_pos_nonneg 10 (Z.of_nat (String.length fs))). lia. }
  rewrite inject_Z_plus, inject_Z_mult. field. exact HT.
Qed.

(** ** The matcher against the grammar *)

Lemma match_length_integer (ds : string) (u : Unit) :
  Grammar.digits ds ->
  match_length (ds ++ unit_text u) = Some (ds, u).
Proof.
  intros [Hne Hd]. unfold match_length.
  rewrite span_digits_app by (assumption || apply unit_text_head).
  destruct ds as [|c ds]; [congruence|].
  destruct u; reflexivity.
Qed.

Lemma match_length_fraction (ds fs : string) (u : Unit) :
  Grammar.digits ds -> Grammar.digits fs ->
  match_length (ds ++ String Str.dot fs ++ unit_text u)
  = Some (ds ++ String Str.dot fs, u).
Proof.
  intros [Hne Hd] [Hnf Hf]. unfold match_length.
  cbn [append].
  rewrite span_digits_app by (assumption || reflexivity).
  destruct ds as [|c ds]; [congruence|].
  rewrite Ascii.eqb_refl.
  rewrite span_digits_app by (assumption || apply unit_text_head).
  destruct fs as [|c' fs]; [congruence|].
  now rewrite match_unit_text.
Qed.

Lemma match_length_sound (s num : string) (u : Unit) :
  match_length s = Some (num, u) ->
  exists q, Grammar.LengthText s q u /\ parseFloat num == q.
Proof.
  unfold match_length.
  destruct (Str.span_digits s) as [ip r1] eqn:Hs.
  apply span_digits_split in Hs as (-> & Hip & Hr1).
  destruct ip as [|c0 ip0] eqn:Eip; [discriminate|]. rewrite <- Eip in *.
  assert (Hdi : Grammar.digits ip) by (split; [congruence | assumption]).
  destruct r1 as [|c r2]; [discriminate|].
  destruct (Ascii.eqb_spec c Str.dot) as [->|Hc].
  - destruct (Str.span_digits r2) as [fp r3] eqn:Hs2.
    apply span_digits_split in Hs2 as (-> & Hfp & Hr3).
    destruct fp as [|c1 fp0] eqn:Efp; [discriminate|]. rewrite <- Efp in *.
    assert (Hdf : Grammar.digits fp) by (split; [congruence | assumption]).
    destruct (match_unit r3) as [u'|] eqn:Hu; [|discriminate].
    intros H; inversion H; subst num u'; clear H.
    apply match_unit_spec in Hu; subst r3.
    eexists; split.
    + apply (Grammar.LT_fraction ip fp u); assumption.
    + apply parseFloat_fraction; assumption.
  - destruct (match_unit (String c r2)) as [u'|] eqn:Hu; [|discriminate].
    intros H; inversion H; subst num u'; clear H.
    apply match_unit_spec in Hu; rewrite Hu.
    eexists; split.
    + apply (Grammar.LT_integer ip u); assumption.
    + rewrite parseFloat_integer by assumption. reflexivity.
Qed.

Lemma match_length_complete (s : string) (q : Q) (u : Unit) :
  Grammar.LengthText s q u ->
  exists num, match_length s = Some (num, u) /\ parseFloat num == q.
Proof.
  intros H; destruct H as [ds u Hd | ds fs u Hd Hf].
  - exists ds; split; [now apply match_length_integer|].
    rewrite parseFloat_integer by apply Hd. reflexivity.
  - exists (ds ++ String Str.dot fs); split.
    + now apply match_length_fraction.
    + apply parseFloat_fraction; [apply Hd | apply Hf].
Qed.

(** ** [split(' ')] and [includes(' ')] *)

Lemma split_space_not_nil (s : string) : Str.split_space s <> [].
Proof.
  destruct s as [|c s]; simpl; [discriminate|].
  destruct (Ascii.eqb c Str.space); [discriminate|].
  destruct (Str.split_space s); discriminate.
Qed.

Lemma split_space_without (s : string) :
  Str.includes_space s = false -> Str.split_space s = [s].
Proof.
  induction s as [|c s IH]; simpl; intros H; [reflexivity|].
  destruct (Ascii.eqb c Str.space); [discriminate|].
  now rewrite IH.
Qed.

Lemma split_space_with (s : string) :
  Str.includes_space s = true ->
  exists a b rest, Str.split_space s = a :: b :: rest.
Proof.
  induction s as [|c s IH]; simpl; intros H; [discriminate|].
  destruct (Ascii.eqb c Str.space).
  - pose proof (split_space_not_nil s) as Hn.
    destruct (Str.split_space s) as [|b rest]; [congruence|].
    now exists EmptyString, b, rest.
  - destruct (IH H) as (a & b & rest & ->).
    now exists (String c a), b, rest.
Qed.

Lemma split_space_single (s t : string) :
  Str.split_space s = [t] -> Str.includes_space s = false /\ t = s.
Proof.
  intros H. destruct (Str.includes_space s) eqn:Hi.
  - destruct (split_space_with s Hi) as (a & b & rest & E). congruence.
  - rewrite (split_space_without s Hi) in H. split; congruence.
Qed.

Lemma split_space_app (a b : string) :
  Str.includes_space a = false ->
  Str.split_space (a ++ String Str.space b) = a :: Str.split_space b.
Proof.
  induction a as [|c a IH]; simpl; intros H; [reflexivity|].
  destruct (Ascii.eqb c Str.space); [discriminate|].
  now rewrite IH.
Qed.

Lemma first_part_without (s : string) :
  Str.includes_space s = false -> Str.first_part s = s.
Proof.
  intros H. unfold Str.first_part. now rewrite split_space_without.
Qed.

(** For a square or a circle the size is cut at its first space, whether
    it has one or not. *)
Lemma getShapeSize_first_part (sz : string) (sh : Shape) :
  sh <> SHAPE_RECTANGLE -> getShapeSize sz sh = Str.first_part sz.
Proof.
  intros Hsh. destruct sh; [congruence| |]; simpl;
    (destruct (Str.includes_space sz) eqn:Hi;
     [reflexivity | now rewrite first_part_without]).
Qed.

Lemma parseValue_Ok (s : string) (p : Parsed) :
  parseValue s = Ok p <->
  exists num, match_length s = Some (num, unit p) /\ value p = parseFloat num.
Proof.
  unfold parseValue. destruct (match_length s) as [[num u]|]; split.
  - intros H; inversion H; subst; simpl. now exists num.
  - intros (num' & H & Hv). inversion H; subst. destruct p; simpl in *.
    now subst.
  - discriminate.
  - intros (num' & H & _). discriminate.
Qed.

Lemma parseRectangleDimensions_two (v t1 t2 : string) (p1 p2 : Parsed) :
  Str.split_space v = [t1; t2] ->
  parseValue t1 = Ok p1 -> parseValue t2 = Ok p2 ->
  parseRectangleDimensions v = Ok {| width := p1; height := p2 |}.
Proof.
  intros Hs H1 H2. unfold parseRectangleDimensions. rewrite Hs.
  apply parseValue_Ok in H1 as (n1 & -> & E1).
  apply parseValue_Ok in H2 as (n2 & -> & E2).
  destruct p1, p2; simpl in *; now subst.
Qed.

Lemma parseRectangleDimensions_arity (v : string) :
  List.length (Str.split_space v) <> 2%nat ->
  parseRectangleDimensions v = Throw (InvalidRectangleDimensions v).
Proof.
  intros H. unfold parseRectangleDimensions.
  destruct (Str.split_space v) as [|a [|b [|c l]]]; simpl in H;
    try reflexivity; congruence.
Qed.

Lemma parseRectangleDimensions_malformed (v t1 t2 : string) :
  Str.split_space v = [t1; t2] ->
  match_length t1 = None \/ match_length t2 = None ->
  parseRectangleDimensions v = Throw (InvalidRectangleDimensions v).
Proof.
  intros Hs H. unfold parseRectangleDimensions. rewrite Hs.
  destruct (match_length t1) as [[n1 u1]|], (match_length t2) as [[n2 u2]|];
    try reflexivity; destruct H; discriminate.
Qed.

(** ** The hit test is the Euclidean one *)

Lemma Rdist2_nonneg (a b c d : Q) : (0 <= Rdist2 a b c d)%R.
Proof.
  unfold Rdist2. apply Rplus_le_le_0_compat; apply Rle_0_sqr.
Qed.

Lemma Q2R_dist2 (a b c d : Q) :
  Q2R ((a - c) ^ 2 + (b - d) ^ 2) = Rdist2 a b c d.
Proof.
  unfold Rdist2. simpl Qpower.
  now rewrite Q2R_plus, !Q2R_mult, !Q2R_minus.
Qed.

Lemma sqrt_le_spec (d r : Q) :
  0 <= d ->
  sqrt_le d r = true <-> (sqrt (Q2R d) <= Q2R r)%R.
Proof.
  intros Hd. apply Qle_Rle in Hd. rewrite RMicromega.Q2R_0 in Hd.
  unfold sqrt_le. rewrite andb_true_iff, !Qle_bool_iff. split.
  - intros [Hr Hdr]. apply Qle_Rle in Hr, Hdr.
    rewrite RMicromega.Q2R_0 in Hr. rewrite Q2R_mult in Hdr.
    rewrite <- (sqrt_square (Q2R r)) by exact Hr.
    now apply sqrt_le_1_alt.
  - intros H. pose proof (sqrt_pos (Q2R d)) as Hs.
    pose proof (sqrt_sqrt (Q2R d) Hd) as Hq.
    split; apply Rle_Qle.
    + rewrite RMicromega.Q2R_0. lra.
    + rewrite Q2R_mult, <- Hq. apply Rmult_le_compat; lra.
Qed.

Lemma dist2_nonneg (a b c d : Q) : 0 <= (a - c) ^ 2 + (b - d) ^ 2.
Proof.
  apply Rle_Qle. rewrite RMicromega.Q2R_0, Q2R_dist2. apply Rdist2_nonneg.
Qed.

Lemma isClickInsideCircle_iff (clickX clickY centerX centerY r : Q) :
  isClickInsideCircle clickX clickY centerX centerY r = true
  <-> (Rdist clickX clickY centerX centerY <= Q2R r)%R.
Proof.
  unfold isClickInsideCircle, Rdist.
  rewrite sqrt_le_spec by apply dist2_nonneg.
  now rewrite Q2R_dist2.
Qed.

(** ** Pixel resolution *)

Lemma toPixels_of_parse (s : string) (p : Parsed) (w : Q) :
  parseValue s = Ok p ->
  toPixels s w = Some (positionToPixels (value p) (unit p) w).
Proof. unfold toPixels. now intros ->. Qed.

(** ** Boxes: width, height and centre in pixels *)

Ltac box_arith :=
  cbn [value unit width height];
  repeat match goal with
         | |- _ /\ _ => split
         | u : Unit |- _ => destruct u
         end;
  cbn [positionToPixels leftPx topPx rightPx bottomPx]; field.

(** For a rectangle, every anchor gives a box whose pixel width and height
    are the parsed width and height. *)
Lemma rectangle_anchor_symmetry
    (hp : Position) (d : Dimensions) (W H px_ py_ : Q) :
  shape hp = SHAPE_RECTANGLE ->
  parseRectangleDimensions (getShapeSize (size hp) SHAPE_RECTANGLE) = Ok d ->
  toPixels (x hp) W = Some px_ ->
  toPixels (y hp) H = Some py_ ->
  exists b box,
    getHoleBoundaries hp = Ok b
    /\ resolveBounds b W H = Some box
    /\ rightPx box - leftPx box
       == positionToPixels (value (width d)) (unit (width d)) W
    /\ bottomPx box - topPx box
       == positionToPixels (value (height d)) (unit (height d)) H.
Proof.
  intros Hs Hd Hx Hy. unfold getHoleBoundaries. rewrite Hs, Hd.
  destruct d as [[wv wu] [hv hu]].
  destruct (anchor hp); eexists; eexists;
    (split; [reflexivity|]);
    unfold resolveBounds; cbn -[toPixels positionToPixels Qdiv];
    rewrite Hx, Hy;
    (split; [reflexivity|]); box_arith.
Qed.

(** For a square whose size has no space, every anchor gives a box whose
    pixel width and height are the parsed size, each against its axis. *)
Lemma square_anchor_symmetry_single
    (hp : Position) (e : Parsed) (W H px_ py_ : Q) :
  shape hp = SHAPE_SQUARE ->
  Str.includes_space (size hp) = false ->
  parseValue (size hp) = Ok e ->
  toPixels (x hp) W = Some px_ ->
  toPixels (y hp) H = Some py_ ->
  exists b box,
    getHoleBoundaries hp = Ok b
    /\ resolveBounds b W H = Some box
    /\ rightPx box - leftPx box == positionToPixels (value e) (unit e) W
    /\ bottomPx box - topPx box == positionToPixels (value e) (unit e) H.
Proof.
  intros Hs Hi He Hx Hy. unfold getHoleBoundaries. rewrite Hs.
  cbn [getShapeSize]. rewrite Hi, He.
  pose proof (toPixels_of_parse _ _ W He) as HW.
  pose proof (toPixels_of_parse _ _ H He) as HH.
  destruct e as [ev eu].
  destruct (anchor hp); eexists; eexists;
    (split; [reflexivity|]);
    unfold resolveBounds; cbn -[toPixels positionToPixels Qdiv];
    rewrite ?Hx, ?Hy, ?HW, ?HH;
    (split; [reflexivity|]); box_arith.
Qed.

(** With the middle anchor the box is built from the parsed first piece,
    for a square and for a circle, whatever follows the first space. *)
Lemma square_middle_symmetry
    (hp : Position) (e : Parsed) (W H px_ py_ : Q) :
  shape hp <> SHAPE_RECTANGLE ->
  anchor hp = ANCHOR_MIDDLE ->
  parseValue (getShapeSize (size hp) (shape hp)) = Ok e ->
  toPixels (x hp) W = Some px_ ->
  toPixels (y hp) H = Some py_ ->
  exists b box,
    getHoleBoundaries hp = Ok b
    /\ resolveBounds b W H = Some box
    /\ rightPx box - leftPx box == positionToPixels (value e) (unit e) W
    /\ bottomPx box - topPx box == positionToPixels (value e) (unit e) H.
Proof.
  intros Hs Ha He Hx Hy. unfold getHoleBoundaries.
  destruct e as [ev eu].
  destruct (shape hp); [congruence| |];
    rewrite He, Ha; eexists; eexists;
    (split; [reflexivity|]);
    unfold resolveBounds; cbn -[toPixels positionToPixels Qdiv];
    rewrite Hx, Hy;
    (split; [reflexivity|]); box_arith.
Qed.

(** C8.  Middle-anchor centring: for every shape and every reference
    position, the boundary computed with anchor [ANCHOR_MIDDLE] and resolved
    to pixels has the reference point at its centre:
    [(left + right) / 2 == px] and [(top + bottom) / 2 == py]; the centre of
    the circle is the reference point itself. *)
Theorem middle_anchor_centering
    (hp : Position) (b : Bounds) (W H px_ py_ : Q) :
  anchor hp = ANCHOR_MIDDLE ->
  getHoleBoundaries hp = Ok b ->
  toPixels (x hp) W = Some px_ ->
  toPixels (y hp) H = Some py_ ->
  (exists box,
      resolveBounds b W H = Some box
      /\ (leftPx box + rightPx box) / 2 == px_
      /\ (topPx box + bottomPx box) / 2 == py_)
  /\ (forall (r : Q) (u : Unit),
        resolve (centerX (calculateCircleCenter (x hp) (y hp) r u (anchor hp))) W
        = Some px_
        /\ resolve (centerY (calculateCircleCenter (x hp) (y hp) r u (anchor hp))) H
           = Some py_).
Proof.
  intros Ha Hb Hx Hy. split.
  - unfold getHoleBoundaries in Hb. rewrite Ha in Hb.
    destruct (shape hp).
    + destruct (parseRectangleDimensions _) as [e|[[wv wu] [hv hu]]];
        [discriminate|].
      inversion Hb; subst b; clear Hb.
      unfold resolveBounds; cbn -[toPixels positionToPixels Qdiv].
      rewrite Hx, Hy. eexists; split; [reflexivity|]. box_arith.
    + destruct (parseValue _) as [e|[ev eu]]; [discriminate|].
      inversion Hb; subst b; clear Hb.
      unfold resolveBounds; cbn -[toPixels positionToPixels Qdiv].
      rewrite Hx, Hy. eexists; split; [reflexivity|]. box_arith.
    + destruct (parseValue _) as [e|[ev eu]]; [discriminate|].
      inversion Hb; subst b; clear Hb.
      unfold resolveBounds; cbn -[toPixels positionToPixels Qdiv].
      rewrite Hx, Hy. eexists; split; [reflexivity|]. box_arith.
  - intros r u. rewrite Ha. simpl. auto.
Qed.

Lemma middle_anchor_centering_witness :
  exists box,
    resolveBounds
      {| left := Calc "50%" Minus (ONum (200 / 2) px);
         top := Calc "50%" Minus (ONum (100 / 2) px);
         right := Calc "50%" Plus (ONum (200 / 2) px);
         bottom := Calc "50%" Plus (ONum (100 / 2) px) |} 1000 800 = Some box
    /\ (leftPx box + rightPx box) / 2 == 1000 * 50 / 100
    /\ (topPx box + bottomPx box) / 2 == 800 * 50 / 100.
Proof.
  apply (proj1 (middle_anchor_centering
    (mkPosition "50%" "50%" "200px 100px" ANCHOR_MIDDLE SHAPE_RECTANGLE)
    _ 1000 800 _ _ eq_refl eq_refl eq_refl eq_refl)).
Defined.

(** C6.  Circle centre per anchor: for a circle whose normalised extent is
    [e], the mask has radius [e / 2] in the unit of [e]; its centre is the
    reference position moved by one radius towards the inside on each axis
    for the four corner anchors (plus on x for the left anchors, minus for
    the right ones; plus on y for the top anchors, minus for the bottom
    ones), and the reference position itself for [ANCHOR_MIDDLE]. *)
Theorem circle_center_per_anchor (hp : Position) (e : Parsed) :
  parseValue (getShapeSize (size hp) SHAPE_CIRCLE) = Ok e ->
  exists m,
    circleMask hp = Ok m
    /\ mask_radius m = value e / 2
    /\ mask_unit m = unit e
    /\ centerX (mask_center m)
       = shifted (x hp) (inward_x (anchor hp)) (value e / 2) (unit e)
    /\ centerY (mask_center m)
       = shifted (y hp) (inward_y (anchor hp)) (value e / 2) (unit e)
    /\ (forall W H px_ py_,
          toPixels (x hp) W = Some px_ ->
          toPixels (y hp) H = Some py_ ->
          exists cx cy,
            resolve (centerX (mask_center m)) W = Some cx
            /\ resolve (centerY (mask_center m)) H = Some cy
            /\ cx == px_ + inward_x (anchor hp)
                           * positionToPixels (value e / 2) (unit e) W
            /\ cy == py_ + inward_y (anchor hp)
                           * positionToPixels (value e / 2) (unit e) H).
Proof.
  intros He. unfold circleMask. rewrite He.
  eexists; split; [reflexivity|].
  cbn [mask_radius mask_unit mask_center].
  repeat split; try (destruct (anchor hp); reflexivity).
  intros W H px_ py_ Hx Hy.
  destruct (anchor hp); cbn -[toPixels positionToPixels Qdiv];
    rewrite Hx, Hy; do 2 eexists;
    (split; [reflexivity|]); (split; [reflexivity|]);
    split; cbn [inward_x inward_y]; ring.
Qed.

Lemma circle_center_per_anchor_witness :
  exists m,
    circleMask (mkPosition "0px" "0px" "100px" ANCHOR_TOP_LEFT SHAPE_CIRCLE)
    = Ok m
    /\ mask_radius m = 100 / 2
    /\ mask_unit m = px
    /\ centerX (mask_center m) = Calc "0px" Plus (ONum (100 / 2) px)
    /\ centerY (mask_center m) = Calc "0px" Plus (ONum (100 / 2) px).
Proof.
  destruct (circle_center_per_anchor
    (mkPosition "0px" "0px" "100px" ANCHOR_TOP_LEFT SHAPE_CIRCLE)
    {| value := 100; unit := px |} eq_refl)
    as (m & Hm & Hr & Hu & Hx & Hy & _).
  exists m. repeat split; assumption.
Defined.

(** ** The click handler *)

Lemma bind_lift_ok {A B : Type} (r : Result A) (a : A) (f : A -> M B) (w : World) :
  r = Ok a -> bind (lift r) f w = f a w.
Proof. now intros ->. Qed.

Lemma bind_lift_throw {A B : Type} (r : Result A) (e : Error) (f : A -> M B) (w : World) :
  r = Throw e -> bind (lift r) f w = (Throw e, w).
Proof. now intros ->. Qed.

(** The calls the handler makes once the hit test has answered. *)
Lemma after_hit_test (inside parent cb : bool) (cx cy : Q) (w : World) :
  (if inside
   then emit StopPropagation ;;;
        (if parent then emit (DispatchClick cx cy) else ret tt)
   else emit StopPropagation ;;;
        (if cb then emit OverlayClick else ret tt)) w
  = (Ok tt,
     (w ++ StopPropagation ::
        (if inside
         then if parent then [DispatchClick cx cy] else []
         else if cb then [OverlayClick] else []))%list).
Proof.
  destruct inside, parent, cb; unfold bind, emit, ret; simpl;
    rewrite <- ?app_assoc; reflexivity.
Qed.

(** A text that starts with [calc(] is not a length. *)
Lemma parseValue_calc (show : Q -> string) (r : string) (op : Sign) (d : Operand) :
  parseValue (render show (Calc r op d))
  = Throw (InvalidPositionValue (render show (Calc r op d))).
Proof. reflexivity. Qed.

(** With a corner anchor the handler throws as soon as the size is a
    length: the centre it asks [parseValue] to read is a [calc(...)]. *)
Lemma handleCircleClick_corner_throws
    (show : Q -> string) (props : MaskLayerProps) (event : MouseEvent)
    (w : World) (sz : Parsed) :
  let hp := holePosition props in
  anchor hp <> ANCHOR_MIDDLE ->
  parseValue (getShapeSize (size hp) SHAPE_CIRCLE) = Ok sz ->
  handleCircleClick show props event w
  = (Throw (InvalidPositionValue
              (render show
                 (centerX (calculateCircleCenter (x hp) (y hp)
                             (value sz / 2) (unit sz) (anchor hp))))), w).
Proof.
  intros hp Ha Hsz. unfold handleCircleClick. fold hp.
  rewrite (bind_lift_ok _ sz) by exact Hsz.
  apply bind_lift_throw.
  destruct (anchor hp); try congruence; apply parseValue_calc.
Qed.

(** The handler, with its three parses and its hit test laid out. *)
Lemma handleCircleClick_cases
    (show : Q -> string) (props : MaskLayerProps) (event : MouseEvent)
    (w : World) :
  let hp := holePosition props in
  let rect := getBoundingClientRect (currentTarget event) in
  handleCircleClick show props event w =
  match parseValue (getShapeSize (size hp) SHAPE_CIRCLE) with
  | inl e => (Throw e, w)
  | inr sz =>
      let c := calculateCircleCenter (x hp) (y hp) (value sz / 2) (unit sz)
                 (anchor hp) in
      match parseValue (render show (centerX c)) with
      | inl e => (Throw e, w)
      | inr cx =>
          match parseValue (render show (centerY c)) with
          | inl e => (Throw e, w)
          | inr cy =>
              (Ok tt,
               (w ++ StopPropagation ::
                  (if isClickInsideCircle
                        (clientX event - DOMRect.left rect)
                        (clientY event - DOMRect.top rect)
                        (positionToPixels (value cx) (unit cx)
                           (DOMRect.width rect))
                        (positionToPixels (value cy) (unit cy)
                           (DOMRect.height rect))
                        (positionToPixels (value sz / 2) (unit sz)
                           (Qmin (DOMRect.width rect) (DOMRect.height rect)))
                   then if parentElement (currentTarget event)
                        then [DispatchClick (clientX event) (clientY event)]
                        else []
                   else if onOverlayClick props then [OverlayClick] else []))
               %list)
          end
      end
  end.
Proof.
  intros hp rect.
  destruct (parseValue (getShapeSize (size hp) SHAPE_CIRCLE)) as [e|sz] eqn:Hsz.
  { unfold handleCircleClick. fold hp.
    now rewrite (bind_lift_throw _ e) by exact Hsz. }
  cbv zeta.
  destruct (parseValue (render show (centerX _))) as [e|cx] eqn:Hcx.
  { unfold handleCircleClick. fold hp.
    rewrite (bind_lift_ok _ sz) by exact Hsz.
    now rewrite (bind_lift_throw _ e) by exact Hcx. }
  destruct (parseValue (render show (centerY _))) as [e|cy] eqn:Hcy.
  { unfold handleCircleClick. fold hp.
    rewrite (bind_lift_ok _ sz) by exact Hsz.
    rewrite (bind_lift_ok _ cx) by exact Hcx.
    now rewrite (bind_lift_throw _ e) by exact Hcy. }
  unfold handleCircleClick. fold hp.
  rewrite (bind_lift_ok _ sz) by exact Hsz.
  rewrite (bind_lift_ok _ cx) by exact Hcx.
  rewrite (bind_lift_ok _ cy) by exact Hcy.
  apply after_hit_test.
Qed.

(** C10.  When the handler reaches the hit test, the radius is converted to
    pixels against the smaller of the container's width and height, so a
    radius of [p %] is [min(width, height) * p / 100] pixels, while the
    centre's x is converted against the width and its y against the
    height. *)
Theorem circle_click_pixels
    (show : Q -> string) (props : MaskLayerProps) (event : MouseEvent)
    (w : World) (sz cx cy : Parsed) :
  let hp := holePosition props in
  let rect := getBoundingClientRect (currentTarget event) in
  let c := calculateCircleCenter (x hp) (y hp) (value sz / 2) (unit sz)
             (anchor hp) in
  let radiusPx :=
    positionToPixels (value sz / 2) (unit sz)
      (Qmin (DOMRect.width rect) (DOMRect.height rect)) in
  let centerXPx :=
    positionToPixels (value cx) (unit cx) (DOMRect.width rect) in
  let centerYPx :=
    positionToPixels (value cy) (unit cy) (DOMRect.height rect) in
  let inside :=
    isClickInsideCircle
      (clientX event - DOMRect.left rect) (clientY event - DOMRect.top rect)
      centerXPx centerYPx radiusPx in
  parseValue (getShapeSize (size hp) SHAPE_CIRCLE) = Ok sz ->
  parseValue (render show (centerX c)) = Ok cx ->
  parseValue (render show (centerY c)) = Ok cy ->
  handleCircleClick show props event w
  = (Ok tt,
     (w ++ StopPropagation ::
        (if inside
         then if parentElement (currentTarget event)
              then [DispatchClick (clientX event) (clientY event)] else []
         else if onOverlayClick props then [OverlayClick] else []))%list)
  /\ (unit sz = pct ->
      radiusPx
      = Qmin (DOMRect.width rect) (DOMRect.height rect) * (value sz / 2) / 100)
  /\ (unit cx = pct -> centerXPx = DOMRect.width rect * value cx / 100)
  /\ (unit cy = pct -> centerYPx = DOMRect.height rect * value cy / 100).
Proof.
  intros hp rect c radiusPx centerXPx centerYPx inside Hsz Hcx Hcy.
  split; [|repeat split; intros Hu;
            subst radiusPx centerXPx centerYPx; now rewrite Hu].
  unfold handleCircleClick.
  rewrite (bind_lift_ok _ sz) by exact Hsz.
  rewrite (bind_lift_ok _ cx) by exact Hcx.
  rewrite (bind_lift_ok _ cy) by exact Hcy.
  apply after_hit_test.
Qed.

Lemma circle_click_pixels_witness :
  handleCircleClick (fun _ => EmptyString)
    (mkProps (mkPosition "50%" "50%" "50%" ANCHOR_MIDDLE SHAPE_CIRCLE) true)
    (mkMouseEvent 700 400 (mkElement (DOMRect.mk 0 0 1000 800) true)) []
  = (Ok tt, [StopPropagation; DispatchClick 700 400])
  /\ handleCircleClick (fun _ => EmptyString)
       (mkProps (mkPosition "50%" "50%" "50%" ANCHOR_MIDDLE SHAPE_CIRCLE) true)
       (mkMouseEvent 701 400 (mkElement (DOMRect.mk 0 0 1000 800) true)) []
     = (Ok tt, [StopPropagation; OverlayClick]).
Proof.
  split.
  - exact (proj1 (circle_click_pixels (fun _ => EmptyString)
      (mkProps (mkPosition "50%" "50%" "50%" ANCHOR_MIDDLE SHAPE_CIRCLE) true)
      (mkMouseEvent 700 400 (mkElement (DOMRect.mk 0 0 1000 800) true)) []
      {| value := 50; unit := pct |} {| value := 50; unit := pct |}
      {| value := 50; unit := pct |} eq_refl eq_refl eq_refl)).
  - exact (proj1 (circle_click_pixels (fun _ => EmptyString)
      (mkProps (mkPosition "50%" "50%" "50%" ANCHOR_MIDDLE SHAPE_CIRCLE) true)
      (mkMouseEvent 701 400 (mkElement (DOMRect.mk 0 0 1000 800) true)) []
      {| value := 50; unit := pct |} {| value := 50; unit := pct |}
      {| value := 50; unit := pct |} eq_refl eq_refl eq_refl)).
Defined.

(** ** The scenarios of the specification *)

(** C1.  End-to-end circle hit test with a corner anchor, on the descriptor
    [x = "0px"], [y = "0px"], [size = "100px"], [ANCHOR_TOP_LEFT],
    [SHAPE_CIRCLE].  The mask is drawn with radius [50px] around a centre
    that resolves to [(50, 50)], and [isClickInsideCircle] puts [(50, 50)]
    inside and [(0, 0)] outside that circle; but the click handler reads
    the centre [calc(0px + 50px)] with [parseValue] and throws, for every
    click and every container, before it classifies anything. *)
Theorem corner_anchor_click_throws
    (show : Q -> string) (cb : bool) (event : MouseEvent) (w : World) :
  let hp := mkPosition "0px" "0px" "100px" ANCHOR_TOP_LEFT SHAPE_CIRCLE in
  circleMask hp
  = Ok {| mask_radius := 100 / 2;
          mask_unit := px;
          mask_center := {| centerX := Calc "0px" Plus (ONum (100 / 2) px);
                            centerY := Calc "0px" Plus (ONum (100 / 2) px) |} |}
  /\ (forall W : Q,
        exists c, resolve (Calc "0px" Plus (ONum (100 / 2) px)) W = Some c
                  /\ c == 50)
  /\ isClickInsideCircle 50 50 50 50 50 = true
  /\ isClickInsideCircle 0 0 50 50 50 = false
  /\ handleCircleClick show (mkProps hp cb) event w
     = (Throw (InvalidPositionValue
                 (render show (Calc "0px" Plus (ONum (100 / 2) px)))), w).
Proof.
  cbv zeta.
  split; [reflexivity|].
  split; [intros W; eexists; split; reflexivity|].
  split; [reflexivity|].
  split; [reflexivity|].
  rewrite handleCircleClick_cases. reflexivity.
Qed.

(** C2.  Anchor symmetry, on the square [size = "200px 400px"] anchored at
    [ANCHOR_TOP_LEFT]: the size normalises to [200px], but the right and
    bottom edges are written with the whole size text,
    [calc(50% + 200px 400px)], which is not a length expression, so the
    edges resolve to no pixel box in any container; with [ANCHOR_MIDDLE] the
    same size gives a box 200 pixels wide and high. *)
Theorem square_corner_two_values_unresolved (W H : Q) :
  let hp := mkPosition "50%" "50%" "200px 400px" ANCHOR_TOP_LEFT SHAPE_SQUARE in
  let b := {| left := Plain "50%";
              top := Plain "50%";
              right := Calc "50%" Plus (OText "200px 400px");
              bottom := Calc "50%" Plus (OText "200px 400px") |} in
  parseValue (getShapeSize (size hp) (shape hp))
  = Ok {| value := 200; unit := px |}
  /\ getHoleBoundaries hp = Ok b
  /\ resolve (right b) W = None
  /\ resolve (bottom b) H = None
  /\ resolveBounds b W H = None
  /\ (exists bm box,
        getHoleBoundaries
          (mkPosition "50%" "50%" "200px 400px" ANCHOR_MIDDLE SHAPE_SQUARE)
        = Ok bm
        /\ resolveBounds bm W H = Some box
        /\ rightPx box - leftPx box == 200
        /\ bottomPx box - topPx box == 200).
Proof.
  cbv zeta.
  do 5 (split; [reflexivity|]).
  eexists; eexists. split; [reflexivity|]. split; [reflexivity|].
  split; cbn [leftPx rightPx topPx bottomPx value unit positionToPixels];
    change (parseFloat "200") with 200; change (parseFloat "50") with 50;
    field.
Qed.

(** ** Tokens and pieces *)

Lemma string_of_snoc (l : list ascii) (c : ascii) (p : string) :
  string_of_list_ascii (l ++ [c]) ++ p
  = string_of_list_ascii l ++ String c p.
Proof.
  induction l as [|a l IH]; simpl; [reflexivity | now rewrite IH].
Qed.

Lemma no_whitespace_cons (c : ascii) (p : string) :
  Grammar.no_whitespace (String c p) ->
  Grammar.is_whitespace c = false /\ Grammar.no_whitespace p.
Proof. unfold Grammar.no_whitespace; simpl. intros H; inversion H; auto. Qed.

Lemma tokens_from_pieces (s : string) : forall (cur : list ascii) p0 rest,
  Str.split_space s = p0 :: rest ->
  Grammar.no_whitespace p0 ->
  Forall Grammar.token_like rest ->
  cur <> [] \/ p0 <> EmptyString ->
  Grammar.tokens_from cur s
  = (string_of_list_ascii (rev cur) ++ p0) :: rest.
Proof.
  induction s as [|c r IH]; intros cur p0 rest Hs Hp Hrest Hne.
  - simpl in Hs. inversion Hs; subst p0 rest; clear Hs.
    destruct Hne as [Hne|Hne]; [|congruence].
    simpl. destruct cur as [|a cur]; [congruence|].
    now rewrite append_empty_r.
  - simpl in Hs. destruct (Ascii.eqb_spec c Str.space) as [->|Hc].
    + inversion Hs; subst p0 rest; clear Hs.
      destruct Hne as [Hne|Hne]; [|congruence].
      destruct (Str.split_space r) as [|p1 rest1] eqn:Hr;
        [now apply split_space_not_nil in Hr|].
      inversion Hrest as [|? ? [Hp1 Hw1] Hrest1]; subst.
      cbn [Grammar.tokens_from].
      change (Grammar.is_whitespace Str.space) with true. cbv iota.
      rewrite (IH [] p1 rest1 eq_refl Hw1 Hrest1 (or_intror Hp1)).
      destruct cur as [|a cur]; [congruence|].
      now rewrite append_empty_r.
    + destruct (Str.split_space r) as [|p1 rest1] eqn:Hr;
        [now apply split_space_not_nil in Hr|].
      inversion Hs; subst p0 rest; clear Hs.
      apply no_whitespace_cons in Hp as [Hwc Hp1].
      cbn [Grammar.tokens_from]. rewrite Hwc.
      rewrite (IH (c :: cur) p1 rest1 eq_refl Hp1 Hrest).
      * cbn [rev]. now rewrite string_of_snoc.
      * left; discriminate.
Qed.

(** On a text whose pieces are all tokens, the cut at single spaces is the
    split on white space. *)
Lemma tokens_split_space (s : string) :
  Forall Grammar.token_like (Str.split_space s) ->
  Grammar.tokens s = Str.split_space s.
Proof.
  intros H. destruct (Str.split_space s) as [|p0 rest] eqn:Hs;
    [now apply split_space_not_nil in Hs|].
  inversion H as [|? ? [Hp Hw] Hrest]; subst.
  unfold Grammar.tokens.
  now rewrite (tokens_from_pieces s [] p0 rest Hs Hw Hrest (or_intror Hp)).
Qed.

(** ** Parsing and size normalisation *)

(** On exact values: [parseValue] succeeds exactly on the texts of the
    grammar [<digits>[.<digits>](px|%)], with the unit in lower case; the
    value it reads before rounding is the magnitude as written, and on
    every other text it throws the invalid-position-value error carrying
    that text. *)
Lemma parseValue_grammar (s : string) :
  (Grammar.well_formed s <-> exists p, parseValue s = Ok p)
  /\ (forall q u, Grammar.LengthText s q u ->
        exists p, parseValue s = Ok p /\ value p == q /\ unit p = u)
  /\ (forall p, parseValue s = Ok p ->
        exists q, Grammar.LengthText s q (unit p) /\ value p == q)
  /\ (~ Grammar.well_formed s <->
      parseValue s = Throw (InvalidPositionValue s)).
Proof.
  assert (Hfwd : forall q u, Grammar.LengthText s q u ->
            exists p, parseValue s = Ok p /\ value p == q /\ unit p = u).
  { intros q u HL.
    destruct (match_length_complete s q u HL) as (num & Hm & Hv).
    exists {| value := parseFloat num; unit := u |}.
    unfold parseValue. rewrite Hm. auto. }
  assert (Hbwd : forall p, parseValue s = Ok p ->
            exists q, Grammar.LengthText s q (unit p) /\ value p == q).
  { intros p Hp. apply parseValue_Ok in Hp as (num & Hm & Hv).
    destruct (match_length_sound s num (unit p) Hm) as (q & HL & Hq).
    exists q. split; [exact HL | now rewrite Hv]. }
  split; [|split; [exact Hfwd | split; [exact Hbwd|]]].
  - split.
    + intros (q & u & HL). destruct (Hfwd q u HL) as (p & Hp & _).
      now exists p.
    + intros (p & Hp). destruct (Hbwd p Hp) as (q & HL & _).
      now exists q, (unit p).
  - split.
    + intros Hn. unfold parseValue.
      destruct (match_length s) as [[num u]|] eqn:Hm; [|reflexivity].
      exfalso. apply Hn.
      destruct (match_length_sound s num u Hm) as (q & HL & _).
      now exists q, u.
    + intros Ht (q & u & HL). destruct (Hfwd q u HL) as (p & Hp & _).
      rewrite Hp in Ht. discriminate.
Qed.

(** C4, as the specification states it, fails: the size ["200px  100px"],
    with two spaces, has exactly two tokens, both lengths, and is
    rejected; the size ["200px "] has exactly one token and is rejected
    too. *)
Lemma rectangle_size_double_space_rejected :
  Grammar.tokens "200px  100px" = ["200px"; "100px"]
  /\ parseValue "200px" = Ok {| value := 200; unit := px |}
  /\ parseValue "100px" = Ok {| value := 100; unit := px |}
  /\ parseRectangleDimensions (getShapeSize "200px  100px" SHAPE_RECTANGLE)
     = Throw (InvalidRectangleDimensions "200px  100px")
  /\ getHoleBoundaries
       (mkPosition "50%" "50%" "200px  100px" ANCHOR_MIDDLE SHAPE_RECTANGLE)
     = Throw (InvalidRectangleDimensions "200px  100px")
  /\ Grammar.tokens "200px " = ["200px"]
  /\ parseRectangleDimensions (getShapeSize "200px " SHAPE_RECTANGLE)
     = Throw (InvalidRectangleDimensions "200px ").
Proof. repeat split. Qed.

(** C4, amended.  Rectangle size normalisation, with the size text cut at
    every single space character (an empty piece counts): exactly one piece
    is duplicated, so that width and height are both the length of that
    piece; exactly two pieces are parsed as width and height, in that
    order; any other number of pieces throws the invalid-rectangle-dimensions
    error, and so does a piece that is not a length. *)
Theorem rectangle_size_by_pieces (sz : string) :
  let normalized :=
    parseRectangleDimensions (getShapeSize sz SHAPE_RECTANGLE) in
  (forall t p,
      Str.split_space sz = [t] -> parseValue t = Ok p ->
      normalized = Ok {| width := p; height := p |})
  /\ (forall t1 t2 p1 p2,
        Str.split_space sz = [t1; t2] ->
        parseValue t1 = Ok p1 -> parseValue t2 = Ok p2 ->
        normalized = Ok {| width := p1; height := p2 |})
  /\ (List.length (Str.split_space sz) <> 1%nat ->
      List.length (Str.split_space sz) <> 2%nat ->
      normalized = Throw (InvalidRectangleDimensions sz))
  /\ (forall t,
        Str.split_space sz = [t] -> parseValue t = Throw (InvalidPositionValue t) ->
        normalized = Throw (InvalidRectangleDimensions (sz ++ " " ++ sz)))
  /\ (forall t1 t2,
        Str.split_space sz = [t1; t2] ->
        parseValue t1 = Throw (InvalidPositionValue t1)
        \/ parseValue t2 = Throw (InvalidPositionValue t2) ->
        normalized = Throw (InvalidRectangleDimensions sz)).
Proof.
  cbv zeta. unfold getShapeSize.
  assert (Hnone : forall t, parseValue t = Throw (InvalidPositionValue t) ->
                            match_length t = None).
  { intros t. unfold parseValue.
    destruct (match_length t) as [[n u]|]; [discriminate | reflexivity]. }
  repeat split.
  - intros t p Hs Hp. apply split_space_single in Hs as [Hi ->].
    rewrite Hi. cbn [negb].
    apply (parseRectangleDimensions_two _ sz sz); try assumption.
    cbn [append]. now rewrite split_space_app, split_space_without.
  - intros t1 t2 p1 p2 Hs H1 H2.
    destruct (Str.includes_space sz) eqn:Hi.
    + cbn [negb]. now apply (parseRectangleDimensions_two _ t1 t2).
    + rewrite (split_space_without _ Hi) in Hs. discriminate.
  - intros H1 H2. destruct (Str.includes_space sz) eqn:Hi.
    + cbn [negb]. now apply parseRectangleDimensions_arity.
    + rewrite (split_space_without _ Hi) in H1. simpl in H1. congruence.
  - intros t Hs Hp. apply split_space_single in Hs as [Hi ->].
    rewrite Hi. cbn [negb].
    apply (parseRectangleDimensions_malformed _ sz sz).
    + cbn [append]. now rewrite split_space_app, split_space_without.
    + left. now apply Hnone.
  - intros t1 t2 Hs Hp.
    destruct (Str.includes_space sz) eqn:Hi.
    + cbn [negb]. apply (parseRectangleDimensions_malformed _ t1 t2 Hs).
      destruct Hp as [Hp|Hp]; [left | right]; now apply Hnone.
    + rewrite (split_space_without _ Hi) in Hs. discriminate.
Qed.

(** C5, as the specification states it, fails: in ["200px" TAB "400px"]
    the first token separated by white space is ["200px"], yet the text has
    no space character, is kept whole and is rejected; and the single
    token of [" 200px"] is not used either. *)
Lemma square_size_tab_rejected :
  let sz := "200px" ++ String "009"%char "400px" in
  Grammar.tokens sz = ["200px"; "400px"]
  /\ parseValue "200px" = Ok {| value := 200; unit := px |}
  /\ getShapeSize sz SHAPE_SQUARE = sz
  /\ parseValue (getShapeSize sz SHAPE_SQUARE) = Throw (InvalidPositionValue sz)
  /\ parseValue (getShapeSize sz SHAPE_CIRCLE) = Throw (InvalidPositionValue sz)
  /\ Grammar.tokens " 200px" = ["200px"]
  /\ parseValue (getShapeSize " 200px" SHAPE_SQUARE)
     = Throw (InvalidPositionValue "").
Proof. cbv zeta. repeat split. Qed.

(** C5, amended.  Square and circle truncation: for the shapes square and
    circle and every size text, normalisation keeps the text in front of
    the first space character and nothing else; what follows that space
    has no influence and raises no error, and a text without a space is
    used unchanged. *)
Theorem square_circle_size_first_piece (sz : string) (sh : Shape) :
  sh = SHAPE_SQUARE \/ sh = SHAPE_CIRCLE ->
  (forall t rest, Str.split_space sz = t :: rest ->
                  getShapeSize sz sh = t
                  /\ parseValue (getShapeSize sz sh) = parseValue t)
  /\ (forall t more, Str.includes_space t = false ->
                     getShapeSize (t ++ " " ++ more) sh = t)
  /\ (Str.includes_space sz = false -> getShapeSize sz sh = sz).
Proof.
  intros Hsh.
  assert (Hne : sh <> SHAPE_RECTANGLE) by (destruct Hsh; subst; discriminate).
  assert (Hfirst : forall t rest, Str.split_space sz = t :: rest ->
                                  getShapeSize sz sh = t).
  { intros t rest Hs. rewrite (getShapeSize_first_part sz sh Hne).
    unfold Str.first_part. now rewrite Hs. }
  split; [|split].
  - intros t rest Hs. split; [now apply (Hfirst t rest)|].
    now rewrite (Hfirst t rest Hs).
  - intros t more Ht. rewrite (getShapeSize_first_part _ sh Hne).
    unfold Str.first_part. cbn [append].
    now rewrite split_space_app.
  - intros Hi. rewrite (getShapeSize_first_part sz sh Hne).
    now apply first_part_without.
Qed.

Lemma square_circle_size_first_piece_witness :
  getShapeSize "200px 400px" SHAPE_SQUARE = "200px"
  /\ parseValue (getShapeSize "200px 400px" SHAPE_SQUARE) = parseValue "200px".
Proof.
  exact (proj1 (square_circle_size_first_piece "200px 400px" SHAPE_SQUARE
                  (or_introl eq_refl)) "200px" ["400px"] eq_refl).
Defined.

(** ** Worked examples *)

Example parseValue_100px :
  parseValue "100px" = Ok {| value := 100; unit := px |}.
Proof. reflexivity. Qed.

Example parseValue_12_5pct :
  parseValue "12.5%" = Ok {| value := 125 # 10; unit := pct |}.
Proof. reflexivity. Qed.

Example parseValue_upper_case_unit :
  parseValue "10PX" = Throw (InvalidPositionValue "10PX").
Proof. reflexivity. Qed.

Example parseValue_no_integer_part :
  parseValue ".5px" = Throw (InvalidPositionValue ".5px").
Proof. reflexivity. Qed.

Example parseValue_no_fraction_digits :
  parseValue "5.px" = Throw (InvalidPositionValue "5.px").
Proof. reflexivity. Qed.

Example split_space_double :
  Str.split_space "200px  100px" = ["200px"; ""; "100px"].
Proof. reflexivity. Qed.

Example rectangle_single_value :
  parseRectangleDimensions (getShapeSize "200px" SHAPE_RECTANGLE)
  = Ok {| width := {| value := 200; unit := px |};
          height := {| value := 200; unit := px |} |}.
Proof. reflexivity. Qed.

Example rectangle_two_values :
  parseRectangleDimensions (getShapeSize "200px 100px" SHAPE_RECTANGLE)
  = Ok {| width := {| value := 200; unit := px |};
          height := {| value := 100; unit := px |} |}.
Proof. reflexivity. Qed.

(** Scenario 1: a 200 by 100 rectangle in the middle of a 1000 by 800
    container has its edges at 400, 350, 600 and 450. *)
Example scenario_rectangle_middle :
  exists b box,
    getHoleBoundaries
      (mkPosition "50%" "50%" "200px 100px" ANCHOR_MIDDLE SHAPE_RECTANGLE)
    = Ok b
    /\ resolveBounds b 1000 800 = Some box
    /\ leftPx box == 400 /\ topPx box == 350
    /\ rightPx box == 600 /\ bottomPx box == 450.
Proof.
  do 2 eexists. split; [reflexivity|]. split; [reflexivity|].
  repeat split; reflexivity.
Qed.

(** Scenario 2: the square ["200px 400px"] in the middle of the same
    container is 200 by 200 around (500, 400). *)
Example scenario_square_middle :
  exists b box,
    getHoleBoundaries
      (mkPosition "50%" "50%" "200px 400px" ANCHOR_MIDDLE SHAPE_SQUARE)
    = Ok b
    /\ resolveBounds b 1000 800 = Some box
    /\ leftPx box == 400 /\ topPx box == 300
    /\ rightPx box == 600 /\ bottomPx box == 500.
Proof.
  do 2 eexists. split; [reflexivity|]. split; [reflexivity|].
  repeat split; reflexivity.
Qed.

(** A circle in the middle is hit-tested: radius 25 % of the smaller side
    of a 1000 by 800 container is 200 pixels. *)
Example scenario_circle_middle_click :
  handleCircleClick (fun _ => EmptyString)
    (mkProps (mkPosition "50%" "50%" "50%" ANCHOR_MIDDLE SHAPE_CIRCLE) false)
    (mkMouseEvent 500 600 (mkElement (DOMRect.mk 0 0 1000 800) true)) []
  = (Ok tt, [StopPropagation; DispatchClick 500 600]).
Proof. reflexivity. Qed.

(** * Further properties of the component *)

(** ** What a parsed length is *)

Lemma digit_val_nonneg (c : ascii) :
  Str.is_digit c = true -> (0 <= Str.digit_val c)%Z.
Proof.
  unfold Str.is_digit, Str.digit_val. intros H.
  apply andb_true_iff in H as [H _]. apply Nat.leb_le in H. lia.
Qed.

Lemma positional_nonneg (ds : string) :
  Str.all_digits ds ->
  (0 <= Grammar.positional (list_ascii_of_string ds))%Z.
Proof.
  induction ds as [|c ds IH]; intros H; simpl; [lia|].
  apply all_digits_cons in H as [Hc Hd].
  pose proof (digit_val_nonneg c Hc).
  pose proof (IH Hd).
  pose proof (Z.pow_nonneg 10
                (Z.of_nat (List.length (list_ascii_of_string ds)))).
  nia.
Qed.

Lemma inject_Z_nonneg (z : Z) : (0 <= z)%Z -> 0 <= inject_Z z.
Proof. intros H. unfold Qle; simpl. lia. Qed.

Lemma LengthText_nonneg (s : string) (q : Q) (u : Unit) :
  Grammar.LengthText s q u -> 0 <= q.
Proof.
  intros H; destruct H as [ds u [_ Hd] | ds fs u [_ Hd] [_ Hf]].
  - apply inject_Z_nonneg. now apply positional_nonneg.
  - pose proof (inject_Z_nonneg _ (positional_nonneg ds Hd)) as H1.
    pose proof (inject_Z_nonneg _ (positional_nonneg fs Hf)) as H2.
    assert (H3 : 0 <= inject_Z (10 ^ Z.of_nat (String.length fs))).
    { apply inject_Z_nonneg. apply Z.pow_nonneg. lia. }
    rewrite <- (Qplus_0_l 0). apply Qplus_le_compat; [exact H1|].
    unfold Qdiv. apply Qmult_le_0_compat; [exact H2|].
    now apply Qinv_le_0_compat.
Qed.

(** X1.  A length that parses is never negative: the pattern has no sign,
    so every magnitude [parseValue] returns is at least zero. *)
Theorem parseValue_nonneg (s : string) (p : Parsed) :
  parseValue s = Ok p -> 0 <= value p.
Proof.
  intros H. apply parseValue_Ok in H as (num & Hm & Hv).
  destruct (match_length_sound s num (unit p) Hm) as (q & HL & Hq).
  rewrite Hv, Hq. exact (LengthText_nonneg s q (unit p) HL).
Qed.

Lemma parseValue_nonneg_witness : 0 <= 125 # 10.
Proof.
  exact (parseValue_nonneg "12.5%" {| value := 125 # 10; unit := pct |}
           eq_refl).
Defined.

(** ** Spaces in sizes *)

Lemma includes_space_app (a b : string) :
  Str.includes_space (a ++ b) = Str.includes_space a || Str.includes_space b.
Proof.
  induction a as [|c a IH]; simpl; [reflexivity|].
  destruct (Ascii.eqb c Str.space); [reflexivity | exact IH].
Qed.

Lemma digits_no_space (ds : string) :
  Str.all_digits ds -> Str.includes_space ds = false.
Proof.
  induction ds as [|c ds IH]; intros H; simpl; [reflexivity|].
  apply all_digits_cons in H as [Hc Hd].
  destruct (Ascii.eqb_spec c Str.space) as [->|_]; [discriminate|].
  now apply IH.
Qed.

Lemma unit_text_no_space (u : Unit) : Str.includes_space (unit_text u) = false.
Proof. destruct u; reflexivity. Qed.

Lemma match_length_no_space (s num : string) (u : Unit) :
  match_length s = Some (num, u) -> Str.includes_space s = false.
Proof.
  intros H. destruct (match_length_sound s num u H) as (q & HL & _).
  destruct HL as [ds u [_ Hd] | ds fs u [_ Hd] [_ Hf]].
  - now rewrite includes_space_app, digits_no_space, unit_text_no_space.
  - rewrite includes_space_app, digits_no_space by assumption.
    cbn [append Str.includes_space orb].
    change (Ascii.eqb Str.dot Str.space) with false. cbv iota.
    now rewrite includes_space_app, digits_no_space, unit_text_no_space.
Qed.

Lemma parseValue_no_space (s : string) (p : Parsed) :
  parseValue s = Ok p -> Str.includes_space s = false.
Proof.
  intros H. apply parseValue_Ok in H as (num & Hm & _).
  exact (match_length_no_space s num (unit p) Hm).
Qed.

Lemma split_space_two (s a b : string) :
  Str.split_space s = [a; b] -> s = a ++ String Str.space b.
Proof.
  revert a; induction s as [|c s IH]; intros a; simpl; [discriminate|].
  destruct (Ascii.eqb_spec c Str.space) as [->|Hc].
  - intros H. inversion H as [[Ha Hs]]. apply split_space_single in Hs as [_ ->].
    reflexivity.
  - destruct (Str.split_space s) as [|p ps] eqn:Hs; [discriminate|].
    intros H. inversion H; subst a ps. cbn [append].
    now rewrite (IH p eq_refl).
Qed.

Lemma first_part_no_space (s : string) :
  Str.includes_space (Str.first_part s) = false.
Proof.
  unfold Str.first_part. induction s as [|c s IH]; simpl; [reflexivity|].
  destruct (Ascii.eqb_spec c Str.space) as [->|Hc]; [reflexivity|].
  destruct (Str.split_space s) as [|p ps]; simpl.
  - destruct (Ascii.eqb_spec c Str.space); [congruence | reflexivity].
  - destruct (Ascii.eqb_spec c Str.space); [congruence | exact IH].
Qed.

(** X2.  Size normalisation is idempotent: normalising a normalised size
    changes nothing, for every shape; a normalised square or circle size
    has no space and a normalised rectangle size has one. *)
Theorem getShapeSize_idempotent (sz : string) (sh : Shape) :
  getShapeSize (getShapeSize sz sh) sh = getShapeSize sz sh
  /\ (sh <> SHAPE_RECTANGLE ->
      Str.includes_space (getShapeSize sz sh) = false)
  /\ (sh = SHAPE_RECTANGLE ->
      Str.includes_space (getShapeSize sz sh) = true).
Proof.
  assert (Hrect : Str.includes_space (getShapeSize sz SHAPE_RECTANGLE) = true).
  { simpl. destruct (Str.includes_space sz) eqn:Hi; simpl; [exact Hi|].
    rewrite includes_space_app. simpl. now rewrite orb_true_r. }
  assert (Hsq : forall sh', sh' <> SHAPE_RECTANGLE ->
                  Str.includes_space (getShapeSize sz sh') = false).
  { intros sh' Hne. rewrite (getShapeSize_first_part sz sh' Hne).
    apply first_part_no_space. }
  split; [|split].
  - destruct sh.
    + unfold getShapeSize at 1. now rewrite Hrect.
    + rewrite (getShapeSize_first_part (getShapeSize sz SHAPE_SQUARE))
        by discriminate.
      apply first_part_without, Hsq. discriminate.
    + rewrite (getShapeSize_first_part (getShapeSize sz SHAPE_CIRCLE))
        by discriminate.
      apply first_part_without, Hsq. discriminate.
  - exact (Hsq sh).
  - intros ->. exact Hrect.
Qed.

Lemma parseRectangleDimensions_Ok (v : string) (d : Dimensions) :
  parseRectangleDimensions v = Ok d ->
  exists t1 t2,
    Str.split_space v = [t1; t2]
    /\ parseValue t1 = Ok (width d) /\ parseValue t2 = Ok (height d).
Proof.
  unfold parseRectangleDimensions.
  destruct (Str.split_space v) as [|t1 [|t2 [|t3 l]]]; try discriminate.
  destruct (match_length t1) as [[n1 u1]|] eqn:H1; [|discriminate].
  destruct (match_length t2) as [[n2 u2]|] eqn:H2; [|discriminate].
  intros H; inversion H; subst d. exists t1, t2.
  unfold parseValue. now rewrite H1, H2.
Qed.

Lemma split_space_pair (t1 t2 : string) :
  Str.includes_space t1 = false -> Str.includes_space t2 = false ->
  Str.split_space (t1 ++ " " ++ t2) = [t1; t2].
Proof.
  intros H1 H2. cbn [append].
  now rewrite split_space_app, split_space_without.
Qed.

Lemma includes_space_cut (s : string) :
  Str.includes_space s = true ->
  exists more, s = Str.first_part s ++ String Str.space more.
Proof.
  unfold Str.first_part.
  induction s as [|c s IH]; simpl; intros H; [discriminate|].
  destruct (Ascii.eqb_spec c Str.space) as [->|Hc].
  - now exists s.
  - destruct (Str.split_space s) as [|p ps] eqn:Hs.
    + now apply split_space_not_nil in Hs.
    + destruct (IH H) as (more & Hm). exists more.
      cbn [append]. now rewrite Hm at 1.
Qed.

Lemma first_part_app (t more : string) :
  Str.includes_space t = false ->
  Str.first_part (t ++ " " ++ more) = t.
Proof.
  intros H. unfold Str.first_part.
  change (t ++ " " ++ more) with (t ++ String Str.space more).
  now rewrite split_space_app.
Qed.

(** X3.  The rectangle sizes that are accepted: a rectangle size
    normalises to dimensions exactly when it is one length, which then is
    both width and height, or two lengths with a single space between
    them, width first. *)
Theorem rectangle_size_accepted_iff (sz : string) (d : Dimensions) :
  parseRectangleDimensions (getShapeSize sz SHAPE_RECTANGLE) = Ok d
  <->
  (exists p, parseValue sz = Ok p /\ d = {| width := p; height := p |})
  \/ (exists t1 t2 p1 p2,
        sz = t1 ++ " " ++ t2
        /\ parseValue t1 = Ok p1 /\ parseValue t2 = Ok p2
        /\ d = {| width := p1; height := p2 |}).
Proof.
  split.
  - intros H. apply parseRectangleDimensions_Ok in H as (t1 & t2 & Hs & H1 & H2).
    unfold getShapeSize in Hs.
    destruct (Str.includes_space sz) eqn:Hi; cbn [negb] in Hs.
    + right. exists t1, t2, (width d), (height d).
      repeat split; try assumption.
      * now apply split_space_two.
      * now destruct d.
    + left. rewrite (split_space_pair sz sz Hi Hi) in Hs.
      inversion Hs; subst t1 t2. exists (width d).
      split; [assumption|]. destruct d as [w h]; simpl in *.
      rewrite H1 in H2. inversion H2. reflexivity.
  - intros [(p & Hp & ->) | (t1 & t2 & p1 & p2 & -> & H1 & H2 & ->)].
    + pose proof (parseValue_no_space sz p Hp) as Hi.
      unfold getShapeSize. rewrite Hi. cbn [negb].
      apply (parseRectangleDimensions_two _ sz sz); try assumption.
      now apply split_space_pair.
    + pose proof (parseValue_no_space t1 p1 H1) as Hi1.
      pose proof (parseValue_no_space t2 p2 H2) as Hi2.
      unfold getShapeSize.
      rewrite includes_space_app. cbn [append Str.includes_space].
      change (Ascii.eqb " " Str.space) with true. cbv iota.
      rewrite orb_true_r. cbn [negb].
      apply (parseRectangleDimensions_two _ t1 t2); try assumption.
      now apply split_space_pair.
Qed.

(** X4.  The square and circle sizes that are accepted: the size
    normalises to a length exactly when it is that length, or starts with
    it and goes on with a space and anything at all. *)
Theorem square_size_accepted_iff (sz : string) (sh : Shape) (p : Parsed) :
  sh <> SHAPE_RECTANGLE ->
  parseValue (getShapeSize sz sh) = Ok p
  <->
  parseValue sz = Ok p
  \/ (exists t more, sz = t ++ " " ++ more /\ parseValue t = Ok p).
Proof.
  intros Hsh. rewrite (getShapeSize_first_part sz sh Hsh). split.
  - intros H. destruct (Str.includes_space sz) eqn:Hi.
    + right. destruct (includes_space_cut sz Hi) as (more & Hm).
      exists (Str.first_part sz), more. split; [exact Hm | exact H].
    + left. now rewrite (first_part_without sz Hi) in H.
  - intros [H | (t & more & -> & H)].
    + now rewrite (first_part_without sz (parseValue_no_space sz p H)).
    + now rewrite (first_part_app t more (parseValue_no_space t p H)).
Qed.

Lemma square_size_accepted_iff_witness :
  parseValue (getShapeSize "200px 400px junk" SHAPE_SQUARE)
  = Ok {| value := 200; unit := px |}.
Proof.
  apply (proj2 (square_size_accepted_iff "200px 400px junk" SHAPE_SQUARE
                  {| value := 200; unit := px |}
                  ltac:(discriminate))).
  right. exists "200px", "400px junk". split; reflexivity.
Defined.

(** ** Errors of the boundary computation *)

(** X5.  [getHoleBoundaries] validates the size and nothing else: whether
    it throws, and what, is unchanged when [x], [y] and the anchor are
    replaced by anything, and the error carries the normalised size: the
    rectangle error the size as duplicated, the length error the text in
    front of the first space. *)
Theorem getHoleBoundaries_errors (hp : Position) :
  (forall e, getHoleBoundaries hp = Throw e ->
     match shape hp with
     | SHAPE_RECTANGLE =>
         e = InvalidRectangleDimensions (getShapeSize (size hp) SHAPE_RECTANGLE)
     | sh => e = InvalidPositionValue (getShapeSize (size hp) sh)
     end)
  /\ (forall (x' y' : string) (a' : Anchor) (e : Error),
        getHoleBoundaries hp = Throw e
        <-> getHoleBoundaries (mkPosition x' y' (size hp) a' (shape hp))
            = Throw e).
Proof.
  destruct hp as [hx hy sz a sh]. cbn [shape size]. split.
  - intros e. unfold getHoleBoundaries. cbn [shape size anchor x y].
    destruct sh.
    + unfold parseRectangleDimensions.
      destruct (Str.split_space _) as [|t1 [|t2 [|t3 l]]];
        try (intros H; inversion H; reflexivity).
      destruct (match_length t1) as [[n1 u1]|];
        [destruct (match_length t2) as [[n2 u2]|]|];
        try (intros H; inversion H; reflexivity);
        destruct a; discriminate.
    + unfold parseValue. destruct (match_length _) as [[n u]|].
      * destruct a; discriminate.
      * intros H; inversion H; reflexivity.
    + unfold parseValue. destruct (match_length _) as [[n u]|].
      * destruct a; discriminate.
      * intros H; inversion H; reflexivity.
  - intros x' y' a' e. unfold getHoleBoundaries. cbn [shape size anchor x y].
    destruct sh.
    + destruct (parseRectangleDimensions _) as [e'|d]; [reflexivity|].
      destruct a, a'; split; discriminate.
    + destruct (parseValue _) as [e'|d]; [reflexivity|].
      destruct a, a'; split; discriminate.
    + destruct (parseValue _) as [e'|d]; [reflexivity|].
      destruct a, a'; split; discriminate.
Qed.

Lemma getRectangleHeight_parse (hp : Position) (d : Dimensions) :
  normalizedSize hp = Ok d ->
  parseValue (getRectangleHeight hp) = Ok (height d).
Proof.
  unfold normalizedSize, getRectangleHeight.
  destruct hp as [hx hy sz a sh]. cbn [shape size]. destruct sh.
  - intros H. apply parseRectangleDimensions_Ok in H as (t1 & t2 & Hs & H1 & H2).
    unfold getShapeSize in Hs.
    destruct (Str.includes_space sz) eqn:Hi; cbn [negb] in Hs.
    + now rewrite Hs.
    + rewrite (split_space_pair sz sz Hi Hi) in Hs.
      inversion Hs; subst t1 t2.
      now rewrite (split_space_without sz Hi).
  - cbn [getShapeSize]. destruct (parseValue _) as [e|p]; [discriminate|].
    intros H; inversion H; reflexivity.
  - cbn [getShapeSize]. destruct (parseValue _) as [e|p]; [discriminate|].
    intros H; inversion H; reflexivity.
Qed.

(** ** Boxes that resolve *)

Lemma toPixels_Some (s : string) (w q : Q) :
  toPixels s w = Some q ->
  exists p, parseValue s = Ok p
            /\ q = positionToPixels (value p) (unit p) w.
Proof.
  unfold toPixels. destruct (parseValue s) as [e|p]; [discriminate|].
  intros H; inversion H. now exists p.
Qed.

Lemma extent_text_pixels (sz : string) (sh : Shape) (e : Parsed) (w q : Q) :
  sh <> SHAPE_RECTANGLE ->
  parseValue (getShapeSize sz sh) = Ok e ->
  toPixels sz w = Some q ->
  q = positionToPixels (value e) (unit e) w
  /\ Str.includes_space sz = false.
Proof.
  intros Hsh He Hq. apply toPixels_Some in Hq as (p & Hp & ->).
  pose proof (parseValue_no_space sz p Hp) as Hi.
  rewrite (getShapeSize_first_part sz sh Hsh), (first_part_without sz Hi) in He.
  rewrite Hp in He. inversion He. auto.
Qed.

Ltac split_resolves H :=
  repeat match type of H with
         | context [toPixels ?s ?w] =>
             let E := fresh "Hpx" in
             destruct (toPixels s w) eqn:E;
             cbn -[toPixels positionToPixels Qdiv] in H;
             try discriminate H
         end.

Ltac anchored_arith :=
  cbn [value unit width height before_x before_y
       leftPx topPx rightPx bottomPx];
  repeat match goal with
         | |- _ /\ _ => split
         | u : Unit |- _ => destruct u
         end;
  cbn [positionToPixels]; field.

(** Whenever the four edges resolve, the reference point and the size were
    lengths and the box is the anchored box of the normalised size. *)
Lemma boundaries_resolved
    (hp : Position) (b : Bounds) (W H : Q) (box : PixelBox) :
  getHoleBoundaries hp = Ok b ->
  resolveBounds b W H = Some box ->
  exists d px_ py_,
    normalizedSize hp = Ok d
    /\ toPixels (x hp) W = Some px_
    /\ toPixels (y hp) H = Some py_
    /\ (shape hp = SHAPE_RECTANGLE \/ anchor hp = ANCHOR_MIDDLE
        \/ Str.includes_space (size hp) = false)
    /\ leftPx box
       == px_ - before_x (anchor hp)
                * positionToPixels (value (width d)) (unit (width d)) W
    /\ rightPx box
       == leftPx box + positionToPixels (value (width d)) (unit (width d)) W
    /\ topPx box
       == py_ - before_y (anchor hp)
                * positionToPixels (value (height d)) (unit (height d)) H
    /\ bottomPx box
       == topPx box + positionToPixels (value (height d)) (unit (height d)) H.
Proof.
  destruct hp as [hx hy sz a sh].
  unfold getHoleBoundaries, normalizedSize. cbn [x y size anchor shape].
  intros Hb Hr. destruct sh.
  - destruct (parseRectangleDimensions _) as [e|[[wv wu] [hv hu]]];
      [discriminate|].
    destruct a; inversion Hb; subst b; clear Hb;
      unfold resolveBounds in Hr;
      cbn -[toPixels positionToPixels Qdiv] in Hr;
      split_resolves Hr; inversion Hr; subst box; clear Hr;
      do 3 eexists; (split; [reflexivity|]);
      (split; [reflexivity|]); (split; [reflexivity|]);
      (split; [now left|]); anchored_arith.
  - destruct (parseValue (getShapeSize sz SHAPE_SQUARE)) as [e|p] eqn:He;
      [discriminate|].
    assert (Hsh : SHAPE_SQUARE <> SHAPE_RECTANGLE) by discriminate.
    destruct a; inversion Hb; subst b; clear Hb;
      unfold resolveBounds in Hr;
      cbn -[toPixels positionToPixels Qdiv] in Hr;
      split_resolves Hr; inversion Hr; subst box; clear Hr;
      repeat match goal with
             | E : toPixels sz _ = Some _ |- _ =>
                 apply (extent_text_pixels sz _ p _ _ Hsh He) in E as [-> ?]
             end;
      do 3 eexists; (split; [reflexivity|]);
      (split; [reflexivity|]); (split; [reflexivity|]);
      (split; [first [now (right; left) | now (right; right)]|]);
      destruct p as [pv pu]; anchored_arith.
  - destruct (parseValue (getShapeSize sz SHAPE_CIRCLE)) as [e|p] eqn:He;
      [discriminate|].
    assert (Hsh : SHAPE_CIRCLE <> SHAPE_RECTANGLE) by discriminate.
    destruct a; inversion Hb; subst b; clear Hb;
      unfold resolveBounds in Hr;
      cbn -[toPixels positionToPixels Qdiv] in Hr;
      split_resolves Hr; inversion Hr; subst box; clear Hr;
      repeat match goal with
             | E : toPixels sz _ = Some _ |- _ =>
                 apply (extent_text_pixels sz _ p _ _ Hsh He) in E as [-> ?]
             end;
      do 3 eexists; (split; [reflexivity|]);
      (split; [reflexivity|]); (split; [reflexivity|]);
      (split; [first [now (right; left) | now (right; right)]|]);
      destruct p as [pv pu]; anchored_arith.
Qed.

(** X7.  Anchored boxes: whenever the four edges of the boundaries resolve
    to pixels, the box has the normalised width and height (each against
    its own axis) and the reference point sits at the anchor: at the named
    corner for the four corner anchors and at the centre for
    [ANCHOR_MIDDLE].  This holds for every shape. *)
Theorem resolved_box_is_anchored
    (hp : Position) (b : Bounds) (W H : Q) (box : PixelBox) :
  getHoleBoundaries hp = Ok b ->
  resolveBounds b W H = Some box ->
  exists d px_ py_,
    normalizedSize hp = Ok d
    /\ toPixels (x hp) W = Some px_
    /\ toPixels (y hp) H = Some py_
    /\ leftPx box
       == px_ - before_x (anchor hp)
                * positionToPixels (value (width d)) (unit (width d)) W
    /\ rightPx box
       == leftPx box + positionToPixels (value (width d)) (unit (width d)) W
    /\ topPx box
       == py_ - before_y (anchor hp)
                * positionToPixels (value (height d)) (unit (height d)) H
    /\ bottomPx box
       == topPx box + positionToPixels (value (height d)) (unit (height d)) H.
Proof.
  intros Hb Hr.
  destruct (boundaries_resolved hp b W H box Hb Hr)
    as (d & px_ & py_ & Hd & Hx & Hy & _ & Hl & Hrt & Ht & Hbt).
  exists d, px_, py_. repeat split; assumption.
Qed.

Lemma resolved_box_is_anchored_witness :
  exists d px_ py_,
    normalizedSize
      (mkPosition "100px" "50%" "30% 40px" ANCHOR_BOTTOM_RIGHT SHAPE_RECTANGLE)
    = Ok d
    /\ toPixels "100px" 1000 = Some px_
    /\ toPixels "50%" 800 = Some py_
    /\ (100 - 1000 * 30 / 100)
       == px_ - 1 * positionToPixels (value (width d)) (unit (width d)) 1000.
Proof.
  destruct (resolved_box_is_anchored
    (mkPosition "100px" "50%" "30% 40px" ANCHOR_BOTTOM_RIGHT SHAPE_RECTANGLE)
    _ 1000 800 _ eq_refl eq_refl)
    as (d & px_ & py_ & Hd & Hx & Hy & Hl & _).
  exists d, px_, py_. repeat split; assumption.
Defined.

Lemma boundaries_resolve
    (hp : Position) (b : Bounds) (W H px_ py_ : Q) :
  getHoleBoundaries hp = Ok b ->
  toPixels (x hp) W = Some px_ ->
  toPixels (y hp) H = Some py_ ->
  shape hp = SHAPE_RECTANGLE \/ anchor hp = ANCHOR_MIDDLE
  \/ Str.includes_space (size hp) = false ->
  exists box, resolveBounds b W H = Some box.
Proof.
  destruct hp as [hx hy sz a sh].
  unfold getHoleBoundaries. cbn [x y size anchor shape].
  intros Hb Hx Hy Hc. destruct sh.
  - destruct (parseRectangleDimensions _) as [e|d]; [discriminate|].
    destruct a; inversion Hb; subst b; unfold resolveBounds;
      cbn -[toPixels positionToPixels Qdiv]; rewrite Hx, Hy;
      eexists; reflexivity.
  - destruct (parseValue (getShapeSize sz SHAPE_SQUARE)) as [e|p] eqn:He;
      [discriminate|].
    destruct Hc as [Hc|[Hc|Hc]]; [discriminate| |].
    + subst a. inversion Hb; subst b. unfold resolveBounds;
        cbn -[toPixels positionToPixels Qdiv]; rewrite Hx, Hy;
        eexists; reflexivity.
    + cbn [getShapeSize] in He. rewrite Hc in He.
      destruct a; inversion Hb; subst b; unfold resolveBounds;
        cbn -[toPixels positionToPixels Qdiv];
        rewrite ?Hx, ?Hy, ?(toPixels_of_parse sz p _ He);
        eexists; reflexivity.
  - destruct (parseValue (getShapeSize sz SHAPE_CIRCLE)) as [e|p] eqn:He;
      [discriminate|].
    destruct Hc as [Hc|[Hc|Hc]]; [discriminate| |].
    + subst a. inversion Hb; subst b. unfold resolveBounds;
        cbn -[toPixels positionToPixels Qdiv]; rewrite Hx, Hy;
        eexists; reflexivity.
    + cbn [getShapeSize] in He. rewrite Hc in He.
      destruct a; inversion Hb; subst b; unfold resolveBounds;
        cbn -[toPixels positionToPixels Qdiv];
        rewrite ?Hx, ?Hy, ?(toPixels_of_parse sz p _ He);
        eexists; reflexivity.
Qed.

(** X6.  The side strips are as tall as the hole: whenever the edges of
    the boundaries resolve to a pixel box, the text [getRectangleHeight]
    returns is a length, and against the container height it resolves to
    exactly [bottom - top] of that box. *)
Theorem side_strip_height_is_box_height
    (hp : Position) (b : Bounds) (W H : Q) (box : PixelBox) :
  getHoleBoundaries hp = Ok b ->
  resolveBounds b W H = Some box ->
  exists h,
    toPixels (getRectangleHeight hp) H = Some h
    /\ h == bottomPx box - topPx box.
Proof.
  intros Hb Hr.
  destruct (boundaries_resolved hp b W H box Hb Hr)
    as (d & px_ & py_ & Hd & _ & _ & _ & _ & _ & _ & Hbt).
  pose proof (getRectangleHeight_parse hp d Hd) as Hh.
  exists (positionToPixels (value (height d)) (unit (height d)) H).
  split; [now apply toPixels_of_parse | Lqa.lra].
Qed.

Lemma side_strip_height_is_box_height_witness :
  exists b box h,
    getHoleBoundaries
      (mkPosition "50%" "50%" "200px 30%" ANCHOR_TOP_LEFT SHAPE_RECTANGLE)
    = Ok b
    /\ resolveBounds b 1000 800 = Some box
    /\ toPixels "30%" 800 = Some h
    /\ h == bottomPx box - topPx box.
Proof.
  edestruct (side_strip_height_is_box_height
    (mkPosition "50%" "50%" "200px 30%" ANCHOR_TOP_LEFT SHAPE_RECTANGLE))
    with (W := 1000) (H := 800) as (h & Hh & He);
    [reflexivity | reflexivity |].
  do 2 eexists. exists h.
  split; [reflexivity|]. split; [reflexivity|]. split; [exact Hh | exact He].
Defined.

(** X8.  When the edges resolve: the boundaries of a descriptor resolve to
    a pixel box exactly when [x] and [y] are lengths and the shape is a
    rectangle, or the anchor is the middle one, or the size has no space.
    A square or circle with a corner anchor and a space in its size never
    gets a box, in any container. *)
Theorem edges_resolve_iff (hp : Position) (b : Bounds) (W H : Q) :
  getHoleBoundaries hp = Ok b ->
  (exists box, resolveBounds b W H = Some box)
  <->
  (exists px_, toPixels (x hp) W = Some px_)
  /\ (exists py_, toPixels (y hp) H = Some py_)
  /\ (shape hp = SHAPE_RECTANGLE \/ anchor hp = ANCHOR_MIDDLE
      \/ Str.includes_space (size hp) = false).
Proof.
  intros Hb. split.
  - intros (box & Hr).
    destruct (boundaries_resolved hp b W H box Hb Hr)
      as (d & px_ & py_ & _ & Hx & Hy & Hc & _).
    split; [now exists px_|]. split; [now exists py_ | exact Hc].
  - intros ((px_ & Hx) & (py_ & Hy) & Hc).
    exact (boundaries_resolve hp b W H px_ py_ Hb Hx Hy Hc).
Qed.

Lemma edges_resolve_iff_witness :
  ~ (exists box,
        resolveBounds
          {| left := Calc "10px" Minus (OText "20% 5px");
             top := Calc "10px" Minus (OText "20% 5px");
             right := Plain "10px";
             bottom := Plain "10px" |} 640 480 = Some box).
Proof.
  intros Hbox.
  destruct (proj1 (edges_resolve_iff
    (mkPosition "10px" "10px" "20% 5px" ANCHOR_BOTTOM_RIGHT SHAPE_CIRCLE)
    _ 640 480 eq_refl) Hbox) as (_ & _ & [Hc|[Hc|Hc]]); discriminate.
Defined.

(** ** The strips around the hole *)

Lemma resolveBounds_Some (b : Bounds) (W H : Q) (box : PixelBox) :
  resolveBounds b W H = Some box ->
  resolve (left b) W = Some (leftPx box)
  /\ resolve (top b) H = Some (topPx box)
  /\ resolve (right b) W = Some (rightPx box)
  /\ resolve (bottom b) H = Some (bottomPx box).
Proof.
  unfold resolveBounds.
  destruct (resolve (left b) W), (resolve (top b) H),
           (resolve (right b) W), (resolve (bottom b) H); try discriminate.
  intros E; inversion E; subst box. auto.
Qed.

(** X9.  The strips leave exactly the hole: for a rectangle or a square
    whose box resolves inside the container, the four strips the component
    renders all have a region, and a point of the container lies strictly
    inside the hole exactly when it lies on none of the four strips.  So
    the overlay covers everything but the hole, and nothing of the hole. *)
Theorem strips_leave_exactly_the_hole
    (props : MaskLayerProps) (bg : option string) (zi : option Q)
    (divs : list Div) (b : Bounds) (W H : Q) (box : PixelBox) :
  shape (holePosition props) <> SHAPE_CIRCLE ->
  MaskLayer props bg zi = Ok divs ->
  getHoleBoundaries (holePosition props) = Ok b ->
  resolveBounds b W H = Some box ->
  0 <= leftPx box -> leftPx box <= rightPx box -> rightPx box <= W ->
  0 <= topPx box -> topPx box <= bottomPx box -> bottomPx box <= H ->
  exists rects,
    placeAll divs W H = Some rects
    /\ List.length rects = 4%nat
    /\ (forall px_ py_,
          0 <= px_ -> px_ <= W -> 0 <= py_ -> py_ <= H ->
          in_hole box px_ py_
          <-> ~ Exists (fun r => on_rect r px_ py_) rects).
Proof.
  intros Hsh Hm Hb Hr Hl0 Hlr HrW Ht0 Htb HbH.
  destruct (boundaries_resolved _ b W H box Hb Hr)
    as (d & px0 & py0 & Hd & _ & _ & _ & _ & _ & _ & Hbt).
  pose proof (getRectangleHeight_parse _ d Hd) as Hh.
  apply (toPixels_of_parse _ _ H) in Hh.
  apply resolveBounds_Some in Hr as (Rl & Rt & Rr & Rb).
  set (h := positionToPixels (value (height d)) (unit (height d)) H) in *.
  assert (Hdivs : exists rects,
            placeAll divs W H = Some rects
            /\ rects =
               [ {| x0 := 0; y0 := 0; x1 := 0 + W; y1 := 0 + topPx box |};
                 {| x0 := 0; y0 := H - 0 - (H - bottomPx box);
                    x1 := 0 + W; y1 := H - 0 |};
                 {| x0 := 0; y0 := topPx box;
                    x1 := 0 + leftPx box; y1 := topPx box + h |};
                 {| x0 := W - 0 - (W - rightPx box); y0 := topPx box;
                    x1 := W - 0; y1 := topPx box + h |} ]).
  { unfold MaskLayer in Hm. rewrite Hb in Hm.
    destruct (shape (holePosition props)); [| |congruence];
      inversion Hm; subst divs; clear Hm;
      cbn [placeAll style]; unfold place, span;
      cbn [Style.top Style.bottom Style.left Style.right
           Style.width Style.height lengthToPixels];
      rewrite Rl, Rt, Rr, Rb, Hh; eexists; split; reflexivity. }
  destruct Hdivs as (rects & Hp & ->).
  eexists. split; [exact Hp|].
  split; [reflexivity|].
  intros px_ py_ Hx0 HxW Hy0 HyH. unfold in_hole. split.
  - intros (H1' & H2' & H3' & H4') HE.
    repeat match goal with
           | E : Exists _ (_ :: _) |- _ => inversion E; subst; clear E
           | E : Exists _ [] |- _ => inversion E
           | E : on_rect _ _ _ |- _ =>
               unfold on_rect in E; cbn [x0 y0 x1 y1] in E
           end; Lqa.lra.
  - intros HN.
    assert (Hn : forall r, In r
              [ {| x0 := 0; y0 := 0; x1 := 0 + W; y1 := 0 + topPx box |};
                {| x0 := 0; y0 := H - 0 - (H - bottomPx box);
                   x1 := 0 + W; y1 := H - 0 |};
                {| x0 := 0; y0 := topPx box;
                   x1 := 0 + leftPx box; y1 := topPx box + h |};
                {| x0 := W - 0 - (W - rightPx box); y0 := topPx box;
                   x1 := W - 0; y1 := topPx box + h |} ] ->
              ~ on_rect r px_ py_).
    { intros r Hin Hon. apply HN. apply Exists_exists. now exists r. }
    assert (N1 := Hn _ (or_introl eq_refl)).
    assert (N2 := Hn _ (or_intror (or_introl eq_refl))).
    assert (N3 := Hn _ (or_intror (or_intror (or_introl eq_refl)))).
    assert (N4 := Hn _ (or_intror (or_intror (or_intror (or_introl eq_refl))))).
    unfold on_rect in N1, N2, N3, N4. cbn [x0 y0 x1 y1] in N1, N2, N3, N4.
    assert (A1 : topPx box < py_).
    { destruct (Qlt_le_dec (topPx box) py_) as [?|Hle]; [assumption|].
      exfalso. apply N1. repeat split; Lqa.lra. }
    assert (A2 : py_ < bottomPx box).
    { destruct (Qlt_le_dec py_ (bottomPx box)) as [?|Hle]; [assumption|].
      exfalso. apply N2. repeat split; Lqa.lra. }
    assert (A3 : leftPx box < px_).
    { destruct (Qlt_le_dec (leftPx box) px_) as [?|Hle]; [assumption|].
      exfalso. apply N3. repeat split; Lqa.lra. }
    assert (A4 : px_ < rightPx box).
    { destruct (Qlt_le_dec px_ (rightPx box)) as [?|Hle]; [assumption|].
      exfalso. apply N4. repeat split; Lqa.lra. }
    auto.
Qed.

Lemma strips_leave_exactly_the_hole_witness :
  exists b box rects,
    getHoleBoundaries
      (mkPosition "50%" "50%" "200px 100px" ANCHOR_MIDDLE SHAPE_RECTANGLE)
    = Ok b
    /\ resolveBounds b 1000 800 = Some box
    /\ List.length rects = 4%nat
    /\ (in_hole box 500 400
        <-> ~ Exists (fun r => on_rect r 500 400) rects).
Proof.
  edestruct (strips_leave_exactly_the_hole
    (mkProps
       (mkPosition "50%" "50%" "200px 100px" ANCHOR_MIDDLE SHAPE_RECTANGLE)
       true) None None) with (W := 1000) (H := 800)
    as (rects & Hp & Hl & Hpt);
    [ discriminate | reflexivity | reflexivity | reflexivity
    | vm_compute; discriminate | vm_compute; discriminate
    | vm_compute; discriminate | vm_compute; discriminate
    | vm_compute; discriminate | vm_compute; discriminate | ].
  do 2 eexists. exists rects.
  split; [reflexivity|]. split; [reflexivity|]. split; [exact Hl|].
  apply Hpt; vm_compute; discriminate.
Defined.

(** ** What is rendered *)

(** X10.  Rendering fails exactly when the boundary computation fails, and
    with the same error: the second parse of the size in the circle branch
    never throws.  When it succeeds, a circle is one [<div>] over the whole
    container, masked with radius half the extent and handled by
    [handleCircleClick]; any other shape is four strips handled by
    [handleClick], none of them masked. *)
Theorem MaskLayer_renders
    (props : MaskLayerProps) (bg : option string) (zi : option Q) :
  (forall e, MaskLayer props bg zi = Throw e
             <-> getHoleBoundaries (holePosition props) = Throw e)
  /\ (forall divs, MaskLayer props bg zi = Ok divs ->
        if match shape (holePosition props) with
           | SHAPE_CIRCLE => true
           | _ => false
           end
        then exists d m e,
               divs = [d]
               /\ onClick d = HandleCircleClick
               /\ (forall W H,
                     place (style d) W H
                     = Some {| x0 := 0; y0 := 0; x1 := 0 + W; y1 := 0 + H |})
               /\ Style.mask (style d) = Some m
               /\ parseValue (getShapeSize (size (holePosition props))
                                SHAPE_CIRCLE) = Ok e
               /\ mask_radius m = value e / 2
               /\ mask_unit m = unit e
        else List.length divs = 4%nat
             /\ Forall (fun d => onClick d = HandleClick
                                 /\ Style.mask (style d) = None) divs).
Proof.
  unfold MaskLayer, circleMask, getHoleBoundaries, Throw, Ok. split.
  - intros e. destruct (shape (holePosition props)).
    + destruct (parseRectangleDimensions _) as [e'|d]; [split; intros E; inversion E; reflexivity|].
      destruct (anchor (holePosition props)); split; discriminate.
    + destruct (parseValue _) as [e'|d]; [split; intros E; inversion E; reflexivity|].
      destruct (anchor (holePosition props)); split; discriminate.
    + destruct (parseValue _) as [e'|d]; [split; intros E; inversion E; reflexivity|].
      destruct (anchor (holePosition props)); split; discriminate.
  - intros divs. destruct (shape (holePosition props)).
    + destruct (parseRectangleDimensions _) as [e'|d]; [discriminate|].
      destruct (anchor (holePosition props)); intros E; inversion E;
        (split; [reflexivity | repeat constructor]).
    + destruct (parseValue _) as [e'|d]; [discriminate|].
      destruct (anchor (holePosition props)); intros E; inversion E;
        (split; [reflexivity | repeat constructor]).
    + destruct (parseValue _) as [e'|d] eqn:He; [discriminate|].
      destruct (anchor (holePosition props)); intros E; inversion E;
        do 3 eexists; repeat split; reflexivity.
Qed.

(** ** The hit test as a region *)

(** X11.  A larger radius accepts more: a click that is inside a circle is
    inside every circle with the same centre and a radius at least as
    large. *)
Theorem isClickInsideCircle_monotone
    (clickX clickY centerX centerY r r' : Q) :
  r <= r' ->
  isClickInsideCircle clickX clickY centerX centerY r = true ->
  isClickInsideCircle clickX clickY centerX centerY r' = true.
Proof.
  intros Hr H. apply isClickInsideCircle_iff in H.
  apply isClickInsideCircle_iff. apply Qle_Rle in Hr. lra.
Qed.

Lemma isClickInsideCircle_monotone_witness :
  isClickInsideCircle 3 4 0 0 (11 # 2) = true.
Proof.
  apply (isClickInsideCircle_monotone 3 4 0 0 5 (11 # 2));
    [vm_compute; discriminate | reflexivity].
Defined.

Lemma Qsquare_nonneg (a : Q) : 0 <= a * a.
Proof.
  destruct (Qlt_le_dec a 0) as [Hn|Hp].
  - setoid_replace (a * a) with ((- a) * (- a)) by ring.
    apply Qmult_le_0_compat; Lqa.lra.
  - now apply Qmult_le_0_compat.
Qed.

(** X12.  Degenerate radii: the centre itself is inside exactly when the
    radius is not negative, and a negative radius accepts no click at
    all. *)
Theorem isClickInsideCircle_degenerate (clickX clickY centerX centerY r : Q) :
  (isClickInsideCircle centerX centerY centerX centerY r = true <-> 0 <= r)
  /\ (r < 0 -> isClickInsideCircle clickX clickY centerX centerY r = false).
Proof.
  unfold isClickInsideCircle, sqrt_le. split.
  - rewrite andb_true_iff, !Qle_bool_iff. simpl Qpower. split.
    + now intros [H _].
    + intros H. split; [exact H|].
      setoid_replace (centerX - centerX) with 0 by ring.
      setoid_replace (centerY - centerY) with 0 by ring.
      pose proof (Qsquare_nonneg r). Lqa.lra.
  - intros Hr. apply andb_false_iff. left.
    destruct (Qle_bool 0 r) eqn:E; [|reflexivity].
    apply Qle_bool_iff in E. Lqa.lra.
Qed.

(** ** When and how the circle handler answers *)

(** X13.  When the circle handler returns: a click on the circle mask is
    handled without an error exactly when the anchor is [ANCHOR_MIDDLE] and
    the size (up to its first space), [x] and [y] are lengths.  With any
    corner anchor every click throws.  A run that throws has made no call
    on the page: neither [stopPropagation] nor a dispatch nor the
    callback. *)
Theorem handleCircleClick_returns_iff
    (show : Q -> string) (props : MaskLayerProps) (event : MouseEvent)
    (w : World) :
  ((exists w', handleCircleClick show props event w = (Ok tt, w'))
   <->
   anchor (holePosition props) = ANCHOR_MIDDLE
   /\ (exists sz,
         parseValue (getShapeSize (size (holePosition props)) SHAPE_CIRCLE)
         = Ok sz)
   /\ (exists cx, parseValue (x (holePosition props)) = Ok cx)
   /\ (exists cy, parseValue (y (holePosition props)) = Ok cy))
  /\ (forall e w',
        handleCircleClick show props event w = (Throw e, w') -> w' = w).
Proof.
  rewrite handleCircleClick_cases.
  destruct (parseValue (getShapeSize (size (holePosition props)) SHAPE_CIRCLE))
    as [e0|sz].
  { split.
    - split.
      + intros (w' & E). discriminate.
      + intros (_ & (sz & E) & _). discriminate.
    - intros e w' E. now inversion E. }
  cbv zeta.
  destruct (anchor (holePosition props)) eqn:Ha;
    cbn [calculateCircleCenter centerX centerY];
    try (rewrite parseValue_calc; split;
         [ split; [intros (w' & E); discriminate
                  | intros (E & _); discriminate]
         | intros e w' E; now inversion E ]).
  cbn [render].
  destruct (parseValue (x (holePosition props))) as [e1|cx].
  { split.
    - split.
      + intros (w' & E). discriminate.
      + intros (_ & _ & (cx & E) & _). discriminate.
    - intros e w' E. now inversion E. }
  destruct (parseValue (y (holePosition props))) as [e2|cy].
  { split.
    - split.
      + intros (w' & E). discriminate.
      + intros (_ & _ & _ & (cy & E)). discriminate.
    - intros e w' E. now inversion E. }
  split.
  - split.
    + intros _. repeat split; eexists; reflexivity.
    + intros _. eexists; reflexivity.
  - intros e w' E. discriminate.
Qed.

Lemma isClickInsideCircle_compat (a a' b b' c d r : Q) :
  a == a' -> b == b' ->
  isClickInsideCircle a b c d r = isClickInsideCircle a' b' c d r.
Proof.
  intros Ha Hb. unfold isClickInsideCircle, sqrt_le. f_equal.
  apply Qleb_comp; [|reflexivity].
  simpl Qpower. rewrite Ha, Hb. reflexivity.
Qed.

(** X15.  The handler goes with its target: when the target and the click
    are moved together on the page, by a scroll or a new layout, the
    handler throws or returns as before and makes the same calls, the
    dispatched click carrying the moved coordinates. *)
Theorem handleCircleClick_moves_with_target
    (show : Q -> string) (props : MaskLayerProps) (event : MouseEvent)
    (dx dy : Q) (w : World) :
  exists outcome calls,
    handleCircleClick show props event w = (outcome, (w ++ calls)%list)
    /\ handleCircleClick show props (moveEvent dx dy event) w
       = (outcome, (w ++ map (moveEffect dx dy) calls)%list).
Proof.
  rewrite !handleCircleClick_cases.
  destruct (parseValue (getShapeSize (size (holePosition props)) SHAPE_CIRCLE))
    as [e|sz].
  { exists (Throw e), []. cbn [map]. rewrite app_nil_r. split; reflexivity. }
  cbv zeta.
  destruct (parseValue (render show (centerX _))) as [e|cx].
  { exists (Throw e), []. cbn [map]. rewrite app_nil_r. split; reflexivity. }
  destruct (parseValue (render show (centerY _))) as [e|cy].
  { exists (Throw e), []. cbn [map]. rewrite app_nil_r. split; reflexivity. }
  cbn [moveEvent clientX clientY currentTarget getBoundingClientRect
       parentElement DOMRect.left DOMRect.top DOMRect.width DOMRect.height].
  rewrite (isClickInsideCircle_compat
             (clientX event + dx
              - (DOMRect.left (getBoundingClientRect (currentTarget event)) + dx))
             (clientX event
              - DOMRect.left (getBoundingClientRect (currentTarget event)))
             (clientY event + dy
              - (DOMRect.top (getBoundingClientRect (currentTarget event)) + dy))
             (clientY event
              - DOMRect.top (getBoundingClientRect (currentTarget event))))
    by ring.
  eexists; eexists. split; [reflexivity|].
  destruct (isClickInsideCircle _ _ _ _ _),
           (parentElement (currentTarget event)),
           (onOverlayClick props); reflexivity.
Qed.

(** X16.  Overlay clicks are handled alike: whenever the circle handler
    gets to its hit test and the click is outside the circle, it does
    exactly what [handleClick] does for a click on a strip: it stops
    propagation and calls [onOverlayClick] if there is one.  [handleClick]
    itself never throws and does not look at the descriptor. *)
Theorem outside_click_is_overlay_click
    (show : Q -> string) (props : MaskLayerProps) (event : MouseEvent)
    (w : World) (sz cx cy : Parsed) :
  let hp := holePosition props in
  let rect := getBoundingClientRect (currentTarget event) in
  let c := calculateCircleCenter (x hp) (y hp) (value sz / 2) (unit sz)
             (anchor hp) in
  parseValue (getShapeSize (size hp) SHAPE_CIRCLE) = Ok sz ->
  parseValue (render show (centerX c)) = Ok cx ->
  parseValue (render show (centerY c)) = Ok cy ->
  isClickInsideCircle
    (clientX event - DOMRect.left rect) (clientY event - DOMRect.top rect)
    (positionToPixels (value cx) (unit cx) (DOMRect.width rect))
    (positionToPixels (value cy) (unit cy) (DOMRect.height rect))
    (positionToPixels (value sz / 2) (unit sz)
       (Qmin (DOMRect.width rect) (DOMRect.height rect))) = false ->
  handleCircleClick show props event w = handleClick props event w
  /\ (forall hp' cb, fst (handleClick (mkProps hp' cb) event w) = Ok tt).
Proof.
  intros hp rect c Hsz Hcx Hcy Hout. subst hp rect c. split.
  - rewrite handleCircleClick_cases.
    rewrite Hsz. unfold Ok. cbv beta iota zeta.
    rewrite Hcx. unfold Ok. cbv beta iota.
    rewrite Hcy. unfold Ok. cbv beta iota.
    rewrite Hout.
    unfold handleClick, bind, emit, ret.
    destruct (onOverlayClick props); cbn; rewrite <- ?app_assoc; reflexivity.
  - intros hp' cb. unfold handleClick, bind, emit, ret.
    destruct cb; reflexivity.
Qed.

Lemma outside_click_is_overlay_click_witness :
  handleCircleClick (fun _ => EmptyString)
    (mkProps (mkPosition "50%" "50%" "50%" ANCHOR_MIDDLE SHAPE_CIRCLE) true)
    (mkMouseEvent 701 400 (mkElement (DOMRect.mk 0 0 1000 800) true)) []
  = handleClick
      (mkProps (mkPosition "50%" "50%" "50%" ANCHOR_MIDDLE SHAPE_CIRCLE) true)
      (mkMouseEvent 701 400 (mkElement (DOMRect.mk 0 0 1000 800) true)) [].
Proof.
  exact (proj1 (outside_click_is_overlay_click (fun _ => EmptyString)
    (mkProps (mkPosition "50%" "50%" "50%" ANCHOR_MIDDLE SHAPE_CIRCLE) true)
    (mkMouseEvent 701 400 (mkElement (DOMRect.mk 0 0 1000 800) true)) []
    {| value := 50; unit := pct |} {| value := 50; unit := pct |}
    {| value := 50; unit := pct |} eq_refl eq_refl eq_refl eq_refl)).
Defined.

(** X17.  A square is square in pixels only sometimes: when the box of a
    square (or of the unused box of a circle) resolves, its pixel width is
    the extent against the container width and its pixel height the extent
    against the container height.  With a [px] extent the two are equal;
    with a [%] extent they are equal exactly when the extent is zero or the
    container is as wide as it is high. *)
Theorem square_is_square_iff
    (hp : Position) (b : Bounds) (W H : Q) (box : PixelBox) (e : Parsed) :
  shape hp <> SHAPE_RECTANGLE ->
  getHoleBoundaries hp = Ok b ->
  resolveBounds b W H = Some box ->
  parseValue (getShapeSize (size hp) (shape hp)) = Ok e ->
  rightPx box - leftPx box == positionToPixels (value e) (unit e) W
  /\ bottomPx box - topPx box == positionToPixels (value e) (unit e) H
  /\ (unit e = px -> rightPx box - leftPx box == bottomPx box - topPx box)
  /\ (unit e = pct ->
      (rightPx box - leftPx box == bottomPx box - topPx box
       <-> value e == 0 \/ W == H)).
Proof.
  intros Hsh Hb Hr He.
  destruct (boundaries_resolved hp b W H box Hb Hr)
    as (d & px_ & py_ & Hd & _ & _ & _ & _ & Hrt & _ & Hbt).
  assert (Hde : d = {| width := e; height := e |}).
  { unfold normalizedSize in Hd.
    destruct (shape hp); [congruence| |]; rewrite He in Hd;
      now inversion Hd. }
  subst d. cbn [width height] in Hrt, Hbt.
  assert (Hw : rightPx box - leftPx box
               == positionToPixels (value e) (unit e) W) by Lqa.lra.
  assert (Hh : bottomPx box - topPx box
               == positionToPixels (value e) (unit e) H) by Lqa.lra.
  split; [exact Hw|]. split; [exact Hh|]. split.
  - intros Hu. rewrite Hw, Hh, Hu. reflexivity.
  - intros Hu. rewrite Hw, Hh, Hu. cbn [positionToPixels]. split.
    + intros E.
      assert (Hz : (W - H) * value e == 0).
      { setoid_replace ((W - H) * value e)
          with ((W * value e / 100 - H * value e / 100) * 100) by field.
        rewrite E. ring. }
      apply Qmult_integral in Hz as [Hz|Hz]; [right | left; exact Hz].
      Lqa.lra.
    + intros [Hz|Hz]; [rewrite Hz | rewrite Hz]; field.
Qed.

Lemma square_is_square_iff_witness :
  ~ ((1000 * 50 / 100 + 1000 * 20 / 100 / 2)
     - (1000 * 50 / 100 - 1000 * 20 / 100 / 2)
     == (800 * 50 / 100 + 800 * 20 / 100 / 2)
        - (800 * 50 / 100 - 800 * 20 / 100 / 2)).
Proof.
  destruct (square_is_square_iff
    (mkPosition "50%" "50%" "20%" ANCHOR_MIDDLE SHAPE_SQUARE)
    _ 1000 800 _ {| value := 20; unit := pct |}
    ltac:(discriminate) eq_refl eq_refl eq_refl) as (_ & _ & _ & Hiff).
  intros E. destruct (proj1 (Hiff eq_refl)) as [Hz|Hz].
  - vm_compute. vm_compute in E. exact E.
  - vm_compute in Hz. discriminate.
  - vm_compute in Hz. discriminate.
Defined.

(** * Binary64 *)

(** ** The order of the numbers of the format *)

Lemma digits2_pos_bounds (m : positive) :
  (2 ^ (Zpos (digits2_pos m) - 1) <= Zpos m < 2 ^ Zpos (digits2_pos m))%Z.
Proof.
  induction m as [p IH | p IH |]; cbn [digits2_pos].
  - rewrite Pos2Z.inj_succ.
    replace (Z.succ (Zpos (digits2_pos p)) - 1)%Z
      with (Z.succ (Zpos (digits2_pos p) - 1)) by lia.
    rewrite !Z.pow_succ_r by lia. lia.
  - rewrite Pos2Z.inj_succ.
    replace (Z.succ (Zpos (digits2_pos p)) - 1)%Z
      with (Z.succ (Zpos (digits2_pos p) - 1)) by lia.
    rewrite !Z.pow_succ_r by lia. lia.
  - cbn. lia.
Qed.

Lemma valid_finite (s : bool) (m : positive) (e : Z) :
  F64.valid (S754_finite s m e) = true ->
  (e = Z.max (Zpos (digits2_pos m) + e - 53) (-1074) /\ e <= 971)%Z.
Proof.
  unfold F64.valid, valid_binary, bounded, canonical_mantissa, fexp, emin,
    F64.prec, F64.emax.
  intros H. apply andb_true_iff in H as [H1 H2].
  apply Z.eqb_eq in H1. apply Z.leb_le in H2.
  change (3 - 1024 - 53)%Z with (-1074)%Z in H1.
  change (1024 - 53)%Z with 971%Z in H2. lia.
Qed.

Lemma two_pow_pos (e : Z) : 0 < 2 ^ e.
Proof. apply Qpower_0_lt. reflexivity. Qed.

Lemma magnitude_pos (m : positive) (e : Z) : 0 < inject_Z (Zpos m) * 2 ^ e.
Proof.
  apply Qmult_lt_0_compat; [reflexivity | apply two_pow_pos].
Qed.

(** A number with the smaller exponent is the smaller number. *)
Lemma magnitude_lt_exp (m1 m2 : positive) (e1 e2 : Z) :
  F64.valid (S754_finite false m1 e1) = true ->
  F64.valid (S754_finite false m2 e2) = true ->
  (e1 < e2)%Z ->
  inject_Z (Zpos m1) * 2 ^ e1 < inject_Z (Zpos m2) * 2 ^ e2.
Proof.
  intros V1 V2 He.
  apply valid_finite in V1 as [C1 _]. apply valid_finite in V2 as [C2 _].
  pose proof (digits2_pos_bounds m1) as [_ U1].
  pose proof (digits2_pos_bounds m2) as [L2 _].
  assert (D1 : (Zpos (digits2_pos m1) <= 53)%Z) by lia.
  assert (D2 : Zpos (digits2_pos m2) = 53%Z) by lia.
  rewrite D2 in L2.
  assert (U1' : (Zpos m1 < 2 ^ 53)%Z).
  { eapply Z.lt_le_trans; [exact U1|]. apply Z.pow_le_mono_r; lia. }
  apply Qlt_le_trans with (inject_Z (2 ^ 53) * 2 ^ e1).
  { apply Qmult_lt_compat_r; [apply two_pow_pos|].
    now rewrite <- Zlt_Qlt. }
  apply Qle_trans with (inject_Z (2 ^ 52) * 2 ^ (e1 + 1)).
  { rewrite Qpower_plus by discriminate.
    change (2 ^ 53)%Z with (2 ^ 52 * 2)%Z. rewrite inject_Z_mult.
    change (2 ^ 1) with (inject_Z 2).
    rewrite (Qmult_comm (2 ^ e1)), Qmult_assoc. apply Qle_refl. }
  apply Qle_trans with (inject_Z (2 ^ 52) * 2 ^ e2).
  { apply Qmult_le_l; [reflexivity|].
    apply Qpower_le_compat_l; [lia | discriminate]. }
  apply Qmult_le_compat_r; [|apply Qlt_le_weak, two_pow_pos].
  rewrite <- Zle_Qle. exact L2.
Qed.

Lemma magnitude_compare (m1 m2 : positive) (e1 e2 : Z) :
  F64.valid (S754_finite false m1 e1) = true ->
  F64.valid (S754_finite false m2 e2) = true ->
  (inject_Z (Zpos m1) * 2 ^ e1 ?= inject_Z (Zpos m2) * 2 ^ e2)%Q
  = match (e1 ?= e2)%Z with
    | Lt => Lt
    | Gt => Gt
    | Eq => Pos.compare_cont Eq m1 m2
    end.
Proof.
  intros V1 V2. destruct (Z.compare_spec e1 e2) as [He|He|He].
  - subst e2. change (Pos.compare_cont Eq m1 m2) with (Pos.compare m1 m2).
    destruct (Pos.compare_spec m1 m2) as [Hm|Hm|Hm].
    + subst m2. apply Qeq_alt. reflexivity.
    + apply Qlt_alt. apply Qmult_lt_compat_r; [apply two_pow_pos|].
      rewrite <- Zlt_Qlt. lia.
    + apply Qgt_alt. apply Qmult_lt_compat_r; [apply two_pow_pos|].
      rewrite <- Zlt_Qlt. lia.
  - apply Qlt_alt. now apply magnitude_lt_exp.
  - apply Qgt_alt. now apply magnitude_lt_exp.
Qed.

Lemma valid_sign (s s' : bool) (m : positive) (e : Z) :
  F64.valid (S754_finite s m e) = F64.valid (S754_finite s' m e).
Proof. reflexivity. Qed.

(** On finite numbers of the format, [<=] is the order of the rationals
    they stand for. *)
Lemma leb_spec (a b : F64.t) :
  F64.finite a = true -> F64.valid a = true ->
  F64.finite b = true -> F64.valid b = true ->
  F64.leb a b = true <-> F64.to_Q a <= F64.to_Q b.
Proof.
  intros Fa Va Fb Vb. unfold F64.leb, SFleb.
  destruct a as [sa | sa | | sa ma ea]; try discriminate;
    destruct b as [sb | sb | | sb mb eb]; try discriminate;
    cbn [SFcompare F64.to_Q].
  - split; [intros _; apply Qle_refl | reflexivity].
  - pose proof (magnitude_pos mb eb) as P.
    destruct sb; split; try discriminate; try reflexivity; intros H; Lqa.lra.
  - pose proof (magnitude_pos ma ea) as P.
    destruct sa; split; try discriminate; try reflexivity; intros H; Lqa.lra.
  - pose proof (magnitude_pos ma ea) as Pa.
    pose proof (magnitude_pos mb eb) as Pb.
    rewrite (valid_sign sa false) in Va. rewrite (valid_sign sb false) in Vb.
    pose proof (magnitude_compare ma mb ea eb Va Vb) as C.
    destruct sa, sb.
    + revert C.
      destruct (ea ?= eb)%Z; [destruct (Pos.compare_cont Eq ma mb)| |];
        intros C; cbn [CompOpp];
        first [apply Qeq_alt in C | apply Qlt_alt in C | apply Qgt_alt in C];
        split; try discriminate; try reflexivity; intros H; Lqa.lra.
    + split; [intros _; Lqa.lra | reflexivity].
    + split; [discriminate | intros H; Lqa.lra].
    + revert C.
      destruct (ea ?= eb)%Z; [destruct (Pos.compare_cont Eq ma mb)| |];
        intros C;
        first [apply Qeq_alt in C | apply Qlt_alt in C | apply Qgt_alt in C];
        split; try discriminate; try reflexivity; intros H; Lqa.lra.
Qed.

Lemma binary_round_aux_nonneg (p x : Z) (m e : Z) (l : location) :
  0 <= F64.to_Q (binary_round_aux p x false m e l).
Proof.
  unfold binary_round_aux.
  destruct (shr_fexp p x m e l) as [mrs' e'].
  destruct (shr_fexp p x _ e' loc_Exact) as [mrs'' e''].
  destruct (shr_m mrs'') as [|k|k]; cbn [F64.to_Q]; try apply Qle_refl.
  destruct (e'' <=? x - p)%Z; cbn [F64.to_Q]; [|apply Qle_refl].
  pose proof (magnitude_pos k e''). Lqa.lra.
Qed.

(** A square root is never negative. *)
Lemma sqrt_nonneg (a : F64.t) : 0 <= F64.to_Q (F64.sqrt a).
Proof.
  unfold F64.sqrt, SFsqrt.
  destruct a as [s | [|] | | [|] m e]; cbn [F64.to_Q]; try apply Qle_refl.
  destruct (SFsqrt_core_binary F64.prec F64.emax (Zpos m) e) as [[mz ez] lz].
  apply binary_round_aux_nonneg.
Qed.

Lemma nearest_compat (q q' : Q) : q == q' -> F64.nearest q = F64.nearest q'.
Proof.
  intros H. unfold F64.nearest. now rewrite (Qred_complete q q' H).
Qed.

(** ** Whole numbers are read exactly *)

Lemma iter_xO_succ (n k : positive) :
  Pos.iter xO n (Pos.succ k) = xO (Pos.iter xO n k).
Proof. apply Pos.iter_succ. Qed.

Lemma shiftl_pos (n k : positive) :
  Z.shiftl (Zpos n) (Zpos k) = Zpos (Pos.iter xO n k).
Proof.
  cbn [Z.shiftl]. induction k as [|k IH] using Pos.peano_ind.
  - reflexivity.
  - rewrite !Pos.iter_succ, IH. reflexivity.
Qed.

Lemma digits_iter_xO (n k : positive) :
  Zpos (digits2_pos (Pos.iter xO n k)) = (Zpos (digits2_pos n) + Zpos k)%Z.
Proof.
  induction k as [|k IH] using Pos.peano_ind.
  - cbn. lia.
  - rewrite iter_xO_succ. cbn [digits2_pos].
    rewrite Pos2Z.inj_succ, IH. lia.
Qed.

Lemma value_iter_xO (n k : positive) :
  Zpos (Pos.iter xO n k) = (Zpos n * 2 ^ Zpos k)%Z.
Proof.
  induction k as [|k IH] using Pos.peano_ind.
  - cbn. lia.
  - rewrite iter_xO_succ, Pos2Z.inj_xO, IH, Pos2Z.inj_succ.
    rewrite Z.pow_succ_r by lia. ring.
Qed.

Lemma iter_xO_even (n k : positive) :
  exists q, Pos.iter xO n k = xO q
            /\ (Zpos (digits2_pos q) = Zpos (digits2_pos n) + Zpos k - 1)%Z
            /\ (2 * Zpos q = Zpos n * 2 ^ Zpos k)%Z.
Proof.
  pose proof (digits_iter_xO n k) as D. pose proof (value_iter_xO n k) as V.
  destruct k as [|k] using Pos.peano_case.
  - exists n. split; [reflexivity|]. split; [lia|].
    change (2 ^ 1)%Z with 2%Z. lia.
  - rewrite iter_xO_succ in *. exists (Pos.iter xO n k).
    cbn [digits2_pos] in D. rewrite Pos2Z.inj_succ in D.
    rewrite Pos2Z.inj_xO in V. repeat split; lia.
Qed.

Lemma div_eucl_1 (a : Z) : Z.div_eucl a 1 = (a, 0%Z).
Proof.
  pose proof (Z.div_1_r a) as Hd. pose proof (Z.mod_1_r a) as Hm.
  unfold Z.div, Z.modulo in Hd, Hm.
  destruct (Z.div_eucl a 1) as [q r]. cbn in Hd, Hm. now subst.
Qed.

(** A whole number below [2^53] is a binary64 number, and [nearest]
    returns it. *)
Lemma nearest_integer (n : positive) :
  (Zpos n < 2 ^ 53)%Z ->
  exists q,
    F64.nearest (inject_Z (Zpos n))
    = S754_finite false q (Zpos (digits2_pos n) - 53)
    /\ (Zpos q = Zpos n * 2 ^ (53 - Zpos (digits2_pos n)))%Z.
Proof.
  intros Hn.
  pose proof (digits2_pos_bounds n) as [L U].
  assert (Hd : (1 <= Zpos (digits2_pos n) <= 53)%Z).
  { split; [lia|].
    destruct (Z.le_gt_cases (Zpos (digits2_pos n)) 53) as [?|Hgt]; [assumption|].
    exfalso.
    assert (2 ^ 53 <= 2 ^ (Zpos (digits2_pos n) - 1))%Z
      by (apply Z.pow_le_mono_r; lia).
    lia. }
  set (d := Zpos (digits2_pos n)) in *.
  unfold F64.nearest.
  rewrite (Qcanon.Qred_identity (inject_Z (Zpos n))) by (apply (Z.gcd_1_r (Zpos n))).
  cbn [Qnum Qden inject_Z].
  unfold F64.div, SFdiv, SFdiv_core_binary, F64.prec, F64.emax.
  cbn [Zdigits2 digits2_pos]. fold d.
  unfold fexp, emin.
  replace (Z.min (Z.max (d + 0 - (1 + 0) - 53) (3 - 1024 - 53)) (0 - 0))%Z
    with (d - 54)%Z by lia.
  destruct (54 - d)%Z as [|k|k] eqn:Hk; try lia.
  replace (0 - 0 - (d - 54))%Z with (Zpos k) by lia.
  rewrite shiftl_pos, div_eucl_1.
  destruct (iter_xO_even n k) as (q & Hq & Dq & Vq). fold d in Dq.
  rewrite Hq.
  change (new_location 1 0) with loc_Exact.
  unfold binary_round_aux, shr_fexp, fexp, emin.
  cbn [shr_record_of_loc Zdigits2 digits2_pos xorb].
  rewrite Pos2Z.inj_succ, Dq.
  replace (Z.max (Z.succ (d + Zpos k - 1) + (d - 54) - 53) (3 - 1024 - 53)
           - (d - 54))%Z with 1%Z by lia.
  cbn [shr iter_pos shr_1 orb shr_m loc_of_shr_record round_nearest_even
       Zdigits2].
  rewrite Dq.
  replace (Z.max (d + Zpos k - 1 + (d - 54 + 1) - 53) (3 - 1024 - 53)
           - (d - 54 + 1))%Z with 0%Z by lia.
  cbn [shr shr_m].
  replace (d - 54 + 1 <=? 1024 - 53)%Z with true
    by (symmetry; apply Z.leb_le; lia).
  exists q. split; [f_equal; lia|].
  replace (53 - d)%Z with (Zpos k - 1)%Z by lia.
  assert (E : (2 ^ Zpos k = 2 * 2 ^ (Zpos k - 1))%Z).
  { rewrite <- Z.pow_succ_r by lia. f_equal. lia. }
  rewrite E in Vq. lia.
Qed.

Lemma nearest_integer_exact (z : Z) :
  (0 <= z < 2 ^ 53)%Z ->
  F64.to_Q (F64.nearest (inject_Z z)) == inject_Z z.
Proof.
  intros [H0 H1]. destruct z as [|n|n]; [reflexivity | | lia].
  destruct (nearest_integer n H1) as (q & -> & Hq).
  pose proof (digits2_pos_bounds n) as [L U].
  assert (Hd : (Zpos (digits2_pos n) <= 53)%Z).
  { destruct (Z.le_gt_cases (Zpos (digits2_pos n)) 53) as [?|Hgt]; [assumption|].
    exfalso.
    assert (2 ^ 53 <= 2 ^ (Zpos (digits2_pos n) - 1))%Z
      by (apply Z.pow_le_mono_r; lia).
    lia. }
  cbn [F64.to_Q]. rewrite Hq, inject_Z_mult.
  rewrite Zpower_Qpower by lia.
  change (inject_Z 2) with 2.
  rewrite Qmult_1_l, <- Qmult_assoc, <- Qpower_plus by discriminate.
  replace (53 - Zpos (digits2_pos n) + (Zpos (digits2_pos n) - 53))%Z
    with 0%Z by lia.
  change (2 ^ 0) with 1. apply Qmult_1_r.
Qed.

(** ** Reading a length as a Number *)

(** C3, as the specification states it, fails: the text
    ["9007199254740993px"] is a length whose written magnitude is
    [2^53 + 1], and the Number [parseValue] returns for it is [2^53]: the
    written magnitude is not a binary64 number and is rounded. *)
Lemma parseValue64_rounds :
  exists q p,
    Grammar.LengthText "9007199254740993px" q px
    /\ q == 9007199254740993
    /\ parseValue64 "9007199254740993px" = Ok p
    /\ unit64 p = px
    /\ value64 p = S754_finite false 4503599627370496 1
    /\ F64.to_Q (value64 p) == 9007199254740992
    /\ ~ F64.to_Q (value64 p) == q.
Proof.
  eexists. eexists. split.
  - apply (Grammar.LT_integer "9007199254740993" px).
    split; [discriminate | repeat constructor].
  - split; [vm_compute; reflexivity|].
    split; [vm_compute; reflexivity|].
    split; [reflexivity|].
    split; [reflexivity|].
    split; [vm_compute; reflexivity|].
    vm_compute. discriminate.
Qed.

(** C3, amended.  Parser totality and rounding: for every input string,
    [parseValue] succeeds exactly when the string matches the grammar
    [<digits>[.<digits>](px|%)] with the unit in lower case; on success it
    returns the unit as written and, as magnitude, the binary64 number
    nearest to the written magnitude (ties to even), which is the written
    magnitude itself for every whole number below [2^53]; on any other
    input it throws the invalid-position-value error carrying the text. *)
Theorem parseValue64_grammar (s : string) :
  (Grammar.well_formed s <-> exists p, parseValue64 s = Ok p)
  /\ (forall q u, Grammar.LengthText s q u ->
        parseValue64 s = Ok {| value64 := F64.nearest q; unit64 := u |})
  /\ (forall p, parseValue64 s = Ok p ->
        exists q, Grammar.LengthText s q (unit64 p)
                  /\ value64 p = F64.nearest q)
  /\ (forall q u z, Grammar.LengthText s q u ->
        q == inject_Z z -> (0 <= z < 2 ^ 53)%Z ->
        exists p, parseValue64 s = Ok p /\ unit64 p = u
                  /\ F64.to_Q (value64 p) == q)
  /\ (~ Grammar.well_formed s <->
      parseValue64 s = Throw (InvalidPositionValue s)).
Proof.
  assert (Hfwd : forall q u, Grammar.LengthText s q u ->
            parseValue64 s = Ok {| value64 := F64.nearest q; unit64 := u |}).
  { intros q u HL.
    destruct (match_length_complete s q u HL) as (num & Hm & Hv).
    unfold parseValue64, parseFloat64. rewrite Hm.
    now rewrite (nearest_compat _ _ Hv). }
  assert (Hbwd : forall p, parseValue64 s = Ok p ->
            exists q, Grammar.LengthText s q (unit64 p)
                      /\ value64 p = F64.nearest q).
  { intros p Hp. unfold parseValue64 in Hp.
    destruct (match_length s) as [[num u]|] eqn:Hm; [|discriminate].
    inversion Hp; subst p; clear Hp. cbn [unit64 value64].
    destruct (match_length_sound s num u Hm) as (q & HL & Hq).
    exists q. split; [exact HL|]. unfold parseFloat64.
    exact (nearest_compat _ _ Hq). }
  split; [|split; [exact Hfwd | split; [exact Hbwd | split]]].
  - split.
    + intros (q & u & HL). eexists. exact (Hfwd q u HL).
    + intros (p & Hp). destruct (Hbwd p Hp) as (q & HL & _).
      now exists q, (unit64 p).
  - intros q u z HL Hq Hz. eexists. split; [exact (Hfwd q u HL)|].
    split; [reflexivity|]. cbn [value64].
    rewrite (nearest_compat q (inject_Z z) Hq), Hq.
    now apply nearest_integer_exact.
  - split.
    + intros Hn. unfold parseValue64.
      destruct (match_length s) as [[num u]|] eqn:Hm; [|reflexivity].
      exfalso. apply Hn.
      destruct (match_length_sound s num u Hm) as (q & HL & _).
      now exists q, u.
    + intros Ht (q & u & HL). rewrite (Hfwd q u HL) in Ht. discriminate.
Qed.

(** ** The hit test on Numbers *)




(** ** Numbers read from texts *)

Example parseValue64_100px :
  parseValue64 "100px"
  = Ok {| value64 := S754_finite false 7036874417766400 (-46);
          unit64 := px |}
  /\ F64.to_Q (S754_finite false 7036874417766400 (-46)) == 100.
Proof. split; vm_compute; reflexivity. Qed.

Example parseValue64_12_5pct :
  parseValue64 "12.5%"
  = Ok {| value64 := S754_finite false 7036874417766400 (-49);
          unit64 := pct |}
  /\ F64.to_Q (S754_finite false 7036874417766400 (-49)) == 125 # 10.
Proof. split; vm_compute; reflexivity. Qed.

(** One tenth is not a binary64 number: ["0.1px"] is read as
    [0x1.999999999999ap-4]. *)
Example parseValue64_tenth :
  parseValue64 "0.1px"
  = Ok {| value64 := S754_finite false 7205759403792794 (-56);
          unit64 := px |}
  /\ ~ F64.to_Q (S754_finite false 7205759403792794 (-56)) == 1 # 10.
Proof. split; [vm_compute; reflexivity | vm_compute; discriminate]. Qed.

(** The sum [0.1 + 0.2] is the Number [0.30000000000000004]. *)
Example binary64_sum :
  F64.add (parseFloat64 "0.1") (parseFloat64 "0.2")
  = F64.nearest (30000000000000004 # 100000000000000000)
  /\ F64.add (parseFloat64 "0.1") (parseFloat64 "0.2") <> parseFloat64 "0.3".
Proof. split; [vm_compute; reflexivity | vm_compute; discriminate]. Qed.

(** A click that underflows when squared counts as the centre. *)
Example hit_test_underflow :
  isClickInsideCircle64 (S754_finite false 4503599627370496 (-652))
    (S754_zero false) (S754_zero false) (S754_zero false) (S754_zero false)
  = true.
Proof. vm_compute. reflexivity. Qed.
